(** * Sliding-tile puzzle engine of [src/main.tsx]

    A shallow embedding of the puzzle engine and of the session handlers of
    the [App] component: [shuffleBoard], [isSolved], [handleGameStart],
    [handleNewGame], [handleReset], [handleSolve], [handleTileClick], the
    timer effect and the solved-check effect.

    Numbers are modelled as [Z]: every number the engine computes is an
    integer far below 2^53.  The one exception is [Math.random()], a double
    of the unit interval, and its product with [possibleMoves.length]: a
    double is modelled in [Q] as the rational it denotes, and the product
    is the exact product rounded to the nearest double. *)

From Stdlib Require Import ZArith QArith Qround Lia Lqa.
From stdpp Require Import base list gmap strings.

Local Open Scope Z_scope.

(** ** JavaScript values and arrays *)

(** What a slot of a [BoardLayout] can hold at run time.  The declared type
    is [number | null]; a read outside the array yields [undefined], and the
    swap of [handleTileClick] can store it. *)
Inductive JsVal : Type :=
  | JNum (n : Z)
  | JNull
  | JUndefined.

#[global] Instance JsVal_eq_dec : EqDecision JsVal.
Proof. solve_decision. Defined.

#[global] Instance JNum_inj : Inj (=) (=) JNum.
Proof. intros x y Heq. by injection Heq. Qed.

(** A JavaScript array: its indexed elements, and the properties created by
    a write at a negative key (such a write does not touch the elements or
    the length).  A hole left by a write past the end reads as [undefined]
    and is never equal to [null] or to a number, so it is kept as
    [JUndefined]. *)
Record JsArray : Type := mkArray {
  items : list JsVal;
  props : gmap Z JsVal
}.

Definition arr_of (l : list JsVal) : JsArray := mkArray l ∅.

(** [a.length] *)
Definition arr_length (a : JsArray) : Z := Z.of_nat (length (items a)).

(** [a[i]] as an expression *)
Definition arr_get (a : JsArray) (i : Z) : JsVal :=
  if decide (0 ≤ i)
  then default JUndefined (items a !! Z.to_nat i)
  else default JUndefined (props a !! i).

(** [a[i] = v] *)
Definition arr_set (a : JsArray) (i : Z) (v : JsVal) : JsArray :=
  if decide (i < 0) then mkArray (items a) (<[i:=v]> (props a))
  else if decide (i < arr_length a)
  then mkArray (<[Z.to_nat i:=v]> (items a)) (props a)
  else mkArray (items a ++ replicate (Z.to_nat (i - arr_length a)) JUndefined ++ [v])
               (props a).

(** [[a[i], a[j]] = [a[j], a[i]]]: both reads happen before the two writes,
    and [a[i]] is written first. *)
Definition arr_swap (a : JsArray) (i j : Z) : JsArray :=
  let vi := arr_get a j in
  let vj := arr_get a i in
  arr_set (arr_set a i vi) j vj.

(** [[...a]]: a fresh array with the elements only. *)
Definition arr_spread (a : JsArray) : JsArray := arr_of (items a).

(** [a.indexOf(v)]: first index holding [v], or [-1]. *)
Definition arr_indexOf (a : JsArray) (v : JsVal) : Z :=
  match list_find (λ x, x = v) (items a) with
  | Some (i, _) => Z.of_nat i
  | None => -1
  end.

(** [Array.from({ length: n }, (_, i) => f i)] *)
Definition array_from (n : Z) (f : Z → JsVal) : JsArray :=
  arr_of (f <$> seqZ 0 n).

(** ** Type definitions of the source *)

Inductive Direction : Type := UP | DOWN | LEFT | RIGHT.

#[global] Instance Direction_eq_dec : EqDecision Direction.
Proof. solve_decision. Defined.

Inductive GameStatus : Type := SELECTING | PLAYING | SOLVED | TIME_UP.

#[global] Instance GameStatus_eq_dec : EqDecision GameStatus.
Proof. solve_decision. Defined.

(** ** Puzzle engine *)

(** The layout both [shuffleBoard] and [handleSolve] start from:
    [Array.from({ length: n }, (_, i) => i + 1)] followed by
    [a[n - 1] = null]. *)
Definition solvedBoard (n : Z) : JsArray :=
  arr_set (array_from n (λ i, JNum (i + 1))) (n - 1) JNull.

(** [isSolved]: the loop returns [false] at the first slot [i] below
    [length - 1] that does not hold [i + 1]; otherwise the result is whether
    the slot [length - 1] holds [null]. *)
Definition isSolved (currentBoard : JsArray) : bool :=
  if forallb (λ i, bool_decide (arr_get currentBoard i = JNum (i + 1)))
             (seqZ 0 (arr_length currentBoard - 1))
  then bool_decide (arr_get currentBoard (arr_length currentBoard - 1) = JNull)
  else false.

(** Slot coordinates: [[i % s, Math.floor(i / s)]].  [%] truncates
    ([Z.rem]), [Math.floor] of the quotient is [Z.div] for the positive
    sizes the game uses. *)
Definition slot_x (s i : Z) : Z := Z.rem i s.
Definition slot_y (s i : Z) : Z := i / s.

(** The [possibleMoves] array of one iteration of the walk, in push order. *)
Definition possibleMoves (s blankIndex : Z) : list Direction :=
  let x := slot_x s blankIndex in
  let y := slot_y s blankIndex in
  (if decide (y > 0) then [DOWN] else []) ++
  (if decide (y < s - 1) then [UP] else []) ++
  (if decide (x > 0) then [RIGHT] else []) ++
  (if decide (x < s - 1) then [LEFT] else []).

(** *** Double-precision products

    [Math.random() * possibleMoves.length] multiplies two doubles: the
    result is the exact product rounded to the nearest double, ties to the
    even significand.  The values met here are far from the overflow
    threshold, so rounding never yields an infinity. *)

(** Every finite double is an integer multiple of [2 ^ -1074], with a
    significand of at most 53 bits. *)
Definition double_unit : Z := 2 ^ 1074.

(** Number of low bits dropped from a magnitude of [F] units: the bits of
    [F] beyond the 53 of the significand. *)
Definition round_shift (F : Z) : Z := Z.max 0 (Z.log2 F + 1 - 53).

(** Nearest integer, ties to even. *)
Definition Qround_even (z : Q) : Z :=
  let f := Qfloor z in
  match Qcompare (z - inject_Z f) (1 # 2) with
  | Lt => f
  | Gt => f + 1
  | Eq => if Z.even f then f else f + 1
  end.

(** The double nearest to a rational [x >= 0]. *)
Definition round_double_pos (x : Q) : Q :=
  let y := (x * inject_Z double_unit)%Q in
  let D := 2 ^ round_shift (Qfloor y) in
  (inject_Z (Qround_even (y / inject_Z D) * D) / inject_Z double_unit)%Q.

Definition round_double (x : Q) : Q :=
  if Qle_bool 0 x then round_double_pos x else (- round_double_pos (- x))%Q.

(** [a * b] on doubles. *)
Definition double_mul (a b : Q) : Q := round_double (a * b).

(** The rationals that are doubles. *)
Definition is_double (r : Q) : Prop := (round_double r == r)%Q.

(** A result of [Math.random()]: a double in [[0, 1)]. *)
Definition valid_draw (r : Q) : Prop := (0 <= r)%Q ∧ (r < 1)%Q ∧ is_double r.

(** [possibleMoves[Math.floor(r * possibleMoves.length)]] for a draw [r] of
    [Math.random()]; [None] is [undefined]. *)
Definition pickMove (r : Q) (moves : list Direction) : option Direction :=
  let k := Qfloor (double_mul r (inject_Z (Z.of_nat (length moves)))) in
  if decide (0 ≤ k) then moves !! Z.to_nat k else None.

(** The four [if (randomMove === ...)] assignments over the initial [-1]. *)
Definition targetIndex (s blankIndex : Z) (randomMove : option Direction) : Z :=
  match randomMove with
  | Some UP => blankIndex + s
  | Some DOWN => blankIndex - s
  | Some LEFT => blankIndex + 1
  | Some RIGHT => blankIndex - 1
  | None => -1
  end.

(** One iteration of the [for] loop of [shuffleBoard], on the pair
    [(newBoard, blankIndex)], with the draw [r]. *)
Definition shuffle_step (s : Z) (r : Q) (st : JsArray * Z) : JsArray * Z :=
  let '(newBoard, blankIndex) := st in
  let randomMove := pickMove r (possibleMoves s blankIndex) in
  let target := targetIndex s blankIndex randomMove in
  (arr_swap newBoard blankIndex target, target).

(** The random source: [rnd k] is the result of the [k]-th call of
    [Math.random()]; a cursor counts the calls made so far. *)
Definition Rng : Type := nat → Q.

Definition valid_rng (rnd : Rng) : Prop := ∀ k, valid_draw (rnd k).

(** [n] iterations of the loop body, drawing from cursor [c] on. *)
Fixpoint shuffle_loop (s : Z) (rnd : Rng) (n c : nat) (st : JsArray * Z)
  : JsArray * Z :=
  match n with
  | O => st
  | S n' => shuffle_loop s rnd n' (S c) (shuffle_step s (rnd c) st)
  end.

(** Number of iterations of [for (let i = 0; i < s * s * 10; i++)]. *)
Definition walk_length (s : Z) : nat := Z.to_nat (s * s * 10).

(** [shuffleBoard] up to the solved check: the board after the walk. *)
Definition shuffle_walk (s : Z) (rnd : Rng) (c : nat) : JsArray :=
  let totalTiles := s * s in
  let blankIndex := totalTiles - 1 in
  fst (shuffle_loop s rnd (walk_length s) c
         (solvedBoard totalTiles, blankIndex)).

(** [shuffleBoard]: the walk, and a recursive call when it ends on the
    solved layout.  [fuel] bounds the number of recursive calls; [None]
    means the bound was reached. *)
Fixpoint shuffleBoard (fuel : nat) (s : Z) (rnd : Rng) (c : nat)
  : option JsArray :=
  let newBoard := shuffle_walk s rnd c in
  if isSolved newBoard
  then match fuel with
       | O => None
       | S fuel' => shuffleBoard fuel' s rnd (c + walk_length s)%nat
       end
  else Some newBoard.

(** ** Session controller: the state of [App] and its handlers *)

(** The [useState] cells of [App] the engine reads or writes
    ([boardSizePx] only feeds the rendering). *)
Record Session : Type := mkSession {
  status : GameStatus;
  imageSrc : option string;
  size : Z;
  board : JsArray;
  moves : Z;
  time : Z
}.

(** The initial values passed to [useState]. *)
Definition initial : Session :=
  mkSession SELECTING None 3 (arr_of []) 0 0.

(** [timeLimit = size * size * 10] *)
Definition timeLimit (st : Session) : Z := size st * size st * 10.

(** [handleGameStart(img, level)]; the draws of [shuffleBoard(level)] are
    taken from [rnd] at cursor [c]. *)
Definition handleGameStart (fuel : nat) (rnd : Rng) (c : nat)
    (img : string) (level : Z) (st : Session) : option Session :=
  newBoard ← shuffleBoard fuel level rnd c;
  Some (mkSession PLAYING (Some img) level newBoard 0 0).

(** [handleNewGame()] *)
Definition handleNewGame (st : Session) : Session :=
  mkSession SELECTING None (size st) (board st) (moves st) (time st).

(** [handleReset()] *)
Definition handleReset (fuel : nat) (rnd : Rng) (c : nat) (st : Session)
  : option Session :=
  newBoard ← shuffleBoard fuel (size st) rnd c;
  Some (mkSession PLAYING (imageSrc st) (size st) newBoard 0 0).

(** [handleSolve()] *)
Definition handleSolve (st : Session) : Session :=
  mkSession SOLVED (imageSrc st) (size st)
            (solvedBoard (size st * size st)) (moves st) (time st).

(** [Math.abs(tileX - blankX) + Math.abs(tileY - blankY)] *)
Definition manhattan (s i j : Z) : Z :=
  Z.abs (slot_x s i - slot_x s j) + Z.abs (slot_y s i - slot_y s j).

(** [handleTileClick(tileIndex)] *)
Definition handleTileClick (st : Session) (tileIndex : Z) : Session :=
  if decide (status st ≠ PLAYING) then st
  else
    let blankIndex := arr_indexOf (board st) JNull in
    if decide (blankIndex = -1) then st
    else
      let isAdjacent := bool_decide (manhattan (size st) tileIndex blankIndex = 1) in
      if isAdjacent
      then
        let newBoard := arr_swap (arr_spread (board st)) tileIndex blankIndex in
        mkSession (status st) (imageSrc st) (size st) newBoard
                  (moves st + 1) (time st)
      else st.

(** The [onClick] of the [Tile] rendered for [value]:
    [handleTileClick(board.indexOf(value))]. *)
Definition tileOnClick (st : Session) (value : Z) : Session :=
  handleTileClick st (arr_indexOf (board st) (JNum value)).

(** One firing of the interval installed by the timer effect.  The effect
    installs it only while [status === PLAYING] and its cleanup clears it
    when the status changes, so outside [PLAYING] no tick reaches the
    state. *)
Definition timerTick (st : Session) : Session :=
  if decide (status st = PLAYING)
  then
    if decide (time st + 1 >= timeLimit st)
    then mkSession TIME_UP (imageSrc st) (size st) (board st) (moves st)
                   (timeLimit st)
    else mkSession (status st) (imageSrc st) (size st) (board st) (moves st)
                   (time st + 1)
  else st.

(** The effect on [[board, status]]: a solved board ends the game. *)
Definition solvedEffect (st : Session) : Session :=
  if decide (status st = PLAYING) then
    if isSolved (board st)
    then mkSession SOLVED (imageSrc st) (size st) (board st) (moves st) (time st)
    else st
  else st.

(** The levels offered by the [<select>] of [ImageSelector]. *)
Definition levels : list Z := [3; 4; 5].

(** What the interface lets happen to a session: a handler runs, then the
    effects.  [ImageSelector] is the whole page while [SELECTING]; the
    buttons and the tiles exist otherwise, one tile per non-null slot. *)
Inductive step (st : Session) : Session → Prop :=
  | step_start img level fuel rnd c st' :
      status st = SELECTING → level ∈ levels → valid_rng rnd →
      handleGameStart fuel rnd c img level st = Some st' →
      step st (solvedEffect st')
  | step_new_game :
      status st ≠ SELECTING → step st (solvedEffect (handleNewGame st))
  | step_reset fuel rnd c st' :
      status st ≠ SELECTING → valid_rng rnd →
      handleReset fuel rnd c st = Some st' →
      step st (solvedEffect st')
  | step_solve :
      status st ≠ SELECTING → step st (solvedEffect (handleSolve st))
  | step_click value :
      status st ≠ SELECTING → JNum value ∈ items (board st) →
      step st (solvedEffect (tileOnClick st value))
  | step_tick :
      step st (solvedEffect (timerTick st)).

Definition reachable (st : Session) : Prop := rtc step initial st.

(** Clicks and ticks, the two event sources of a running game. *)
Inductive PlayEvent : Type :=
  | Click (tileIndex : Z)
  | Tick.

#[global] Instance PlayEvent_eq_dec : EqDecision PlayEvent.
Proof. solve_decision. Defined.

Definition play (st : Session) (e : PlayEvent) : Session :=
  match e with
  | Click tileIndex => solvedEffect (handleTileClick st tileIndex)
  | Tick => solvedEffect (timerTick st)
  end.

Definition play_all (st : Session) (evs : list PlayEvent) : Session :=
  foldl play st evs.

Definition ticks (evs : list PlayEvent) : Z :=
  Z.of_nat (length (filter (λ e, e = Tick) evs)).

(** ** Vocabulary of the specification *)

(** The solved layout written out: tiles [1 .. n-1] in order, then the
    empty marker. *)
Definition solved_items (n : Z) : list JsVal :=
  (JNum <$> seqZ 1 (n - 1)) ++ [JNull].

(** Number of slots holding [v]. *)
Definition occurrences (v : JsVal) (l : list JsVal) : nat :=
  length (filter (λ x, x = v) l).

(** The board invariant of the data model, for a board of [n] slots:
    one empty marker, every tile identifier of [1 .. n-1] once, and nothing
    else. *)
Definition board_inv (n : Z) (b : JsArray) : Prop :=
  occurrences JNull (items b) = 1%nat ∧
  (∀ v, 1 ≤ v ≤ n - 1 → occurrences (JNum v) (items b) = 1%nat) ∧
  (∀ x, x ∈ items b → x = JNull ∨ ∃ v, x = JNum v ∧ 1 ≤ v ≤ n - 1).

(** A legal slide on a board of side [s]: the tile of an in-range slot at
    Manhattan distance 1 of the empty slot exchanges places with the empty
    marker. *)
Inductive slide (s : Z) (b : JsArray) : JsArray → Prop :=
  | slide_intro tileIndex blankIndex :
      0 ≤ tileIndex < arr_length b →
      0 ≤ blankIndex < arr_length b →
      arr_get b blankIndex = JNull →
      manhattan s tileIndex blankIndex = 1 →
      slide s b (arr_swap b tileIndex blankIndex).

Definition slide_reachable (s : Z) (b : JsArray) : Prop :=
  rtc (slide s) (solvedBoard (s * s)) b.

(** What every iteration of the shuffle walk maintains on the pair
    [(newBoard, blankIndex)] of a board of side [s]. *)
Definition walk_inv (s : Z) (st : JsArray * Z) : Prop :=
  items st.1 ≡ₚ solved_items (s * s) ∧
  props st.1 = ∅ ∧
  0 ≤ st.2 < s * s ∧
  arr_get st.1 st.2 = JNull ∧
  slide_reachable s st.1.

(** The state the walk of [shuffleBoard(s)] starts from. *)
Definition walk_start (s : Z) : JsArray * Z := (solvedBoard (s * s), s * s - 1).

(** A random source that always answers [0]. *)
Definition rng_zero : Rng := λ _, 0%Q.

(** A random source that answers [0] and [1/2] in turn. *)
Definition rng_alternating : Rng :=
  λ k, if Nat.even k then 0%Q else (1 # 2)%Q.

(** The double [0.6666666666666666], the largest one below [2/3]. *)
Definition draw_two_thirds : Q := 6004799503160661 # 9007199254740992.


(** ** The iteration of the walk as the specification words it *)

(** The legal directions of an empty slot at column [x] and row [y]. *)
Definition spec_legal (s x y : Z) (d : Direction) : Prop :=
  match d with
  | DOWN => y > 0
  | UP => y < s - 1
  | RIGHT => x > 0
  | LEFT => x < s - 1
  end.

#[global] Instance spec_legal_dec s x y d : Decision (spec_legal s x y d).
Proof. destruct d; simpl; apply _. Defined.



(** What holds of every session the interface can produce: a size of the
    selector, an elapsed time within the limit, and a board that is the
    initial empty array or an arrangement of the solved layout. *)
Definition session_inv (st : Session) : Prop :=
  size st ∈ levels ∧
  0 ≤ time st ≤ timeLimit st ∧
  (items (board st) = [] ∨
   items (board st) ≡ₚ solved_items (size st * size st)).

(** A 3×3 game a few clicks after its start. *)
Definition session_blank_low : Session :=
  mkSession PLAYING (Some "img") 3
    (arr_of ((JNum <$> [1; 2; 3; 4; 8; 5; 7]) ++ [JNull; JNum 6])) 3 0.

(** ** Rendering: what [App] hands to each [Tile] *)

(** [Tile]: the slot whose crop of the image the tile [value] shows,
    [correctPosition = value - 1], and its column and row
    [correctPosition % boardSize], [Math.floor(correctPosition / boardSize)]. *)
Definition correctPosition (value : Z) : Z := value - 1.
Definition correctX (boardSize value : Z) : Z :=
  Z.rem (correctPosition value) boardSize.
Definition correctY (boardSize value : Z) : Z :=
  correctPosition value / boardSize.

(** The props of a [Tile] that are integers or flags: [value] (also the
    React key), [boardSize], [position], the index its [onClick] passes to
    [handleTileClick], and [isSolved].  The pixel sizes, products with the
    floating-point [tileSize], are left out. *)
Record TileProps : Type := mkTileProps {
  tile_value : Z;
  tile_boardSize : Z;
  tile_position : Z * Z;
  tile_onClick : Z;
  tile_isSolved : bool
}.

(** The callback of [board.map]: [null] for the empty marker, a [Tile] at
    the coordinates of [board.indexOf(value)] for a number.  An [undefined]
    element is outside the declared element type [number | null]; the
    outer [None] says the rendering of such a board is not modelled. *)
Definition renderSlot (st : Session) (value : JsVal) : option (option TileProps) :=
  match value with
  | JNull => Some None
  | JNum v =>
      let pos := arr_indexOf (board st) value in
      let x := slot_x (size st) pos in
      let y := slot_y (size st) pos in
      Some (Some (mkTileProps v (size st) (x, y) pos
                              (bool_decide (status st = SOLVED))))
  | JUndefined => None
  end.

(** What [App] returns: the selector page while [SELECTING], otherwise the
    game page with the result of [board.map]. *)
Inductive Page : Type :=
  | SelectorPage
  | GamePage (tiles : list (option TileProps)).

Definition render (st : Session) : option Page :=
  if decide (status st = SELECTING) then Some SelectorPage
  else GamePage <$> mapM (renderSlot st) (items (board st)).

(** The tiles of a page, without the [null] entries. *)
Definition page_tiles (p : Page) : list TileProps :=
  match p with
  | SelectorPage => []
  | GamePage tiles => omap id tiles
  end.

(** [getWinMessage]: the [switch] on [size]. *)
Definition getWinMessage (st : Session) : string :=
  if decide (size st = 3) then "Gagné ! Bonus de 10% sur le billet de 5000."
  else if decide (size st = 4) then "Gagné ! Bonus de 7% sur le billet de 10000."
  else if decide (size st = 5) then "Gagné ! Bonus de 6% sur le billet de 25000."
  else "Gagné !".

(** [renderMessage]: the text of the message under the title, [None] for
    the [null] of the [default] branch. *)
Definition renderMessage (st : Session) : option string :=
  match status st with
  | SOLVED => Some (getWinMessage st)
  | TIME_UP => Some "Temps écoulé ! Pas de réduction."
  | PLAYING => Some "Déplacez les tuiles pour reconstituer l'image."
  | SELECTING => None
  end.

(** ** Further vocabulary *)

(** What relates the status of a session the interface can produce to its
    other cells. *)
Definition session_status_inv (st : Session) : Prop :=
  0 ≤ moves st ∧
  (status st ≠ SELECTING →
     imageSrc st ≠ None ∧
     items (board st) ≡ₚ solved_items (size st * size st) ∧
     props (board st) = ∅) ∧
  (status st = PLAYING → isSolved (board st) = false ∧ time st < timeLimit st) ∧
  (status st = SOLVED → isSolved (board st) = true) ∧
  (status st = TIME_UP → time st = timeLimit st).

(** Number of clicks among the events. *)
Definition clicks (evs : list PlayEvent) : Z :=
  Z.of_nat (length (filter (λ e, e ≠ Tick) evs)).

(** * Properties *)

(** ** Arrays *)

Section array_facts.
Implicit Types (a : JsArray) (i j k : Z) (v : JsVal) (l : list JsVal).

Lemma JsArray_eq a a' : items a = items a' → props a = props a' → a = a'.
Proof. destruct a, a'. simpl. by intros -> ->. Qed.

Lemma arr_length_nonneg a : 0 ≤ arr_length a.
Proof. unfold arr_length. lia. Qed.

Lemma arr_get_lookup a i :
  0 ≤ i < arr_length a → items a !! Z.to_nat i = Some (arr_get a i).
Proof.
  intros Hi. unfold arr_get. rewrite decide_True by lia.
  destruct (lookup_lt_is_Some_2 (items a) (Z.to_nat i)) as [x Hx].
  { unfold arr_length in Hi. lia. }
  by rewrite Hx.
Qed.

Lemma arr_get_of_lookup a (n : nat) v :
  items a !! n = Some v → arr_get a (Z.of_nat n) = v.
Proof.
  intros Hn. unfold arr_get. rewrite decide_True by lia.
  by rewrite Nat2Z.id, Hn.
Qed.

Lemma arr_get_past_end a i : arr_length a ≤ i → arr_get a i = JUndefined.
Proof.
  intros Hi. pose proof (arr_length_nonneg a). unfold arr_get.
  rewrite decide_True by lia.
  rewrite lookup_ge_None_2; [done|]. unfold arr_length in Hi. lia.
Qed.

Lemma arr_set_in_range a i v :
  0 ≤ i < arr_length a →
  arr_set a i v = mkArray (<[Z.to_nat i:=v]> (items a)) (props a).
Proof.
  intros Hi. unfold arr_set.
  rewrite decide_False by lia. by rewrite decide_True by lia.
Qed.

Lemma arr_length_set_in_range a i v :
  0 ≤ i < arr_length a → arr_length (arr_set a i v) = arr_length a.
Proof.
  intros Hi. rewrite arr_set_in_range by done.
  unfold arr_length; simpl. by rewrite length_insert.
Qed.

Lemma arr_swap_in_range a i j :
  0 ≤ i < arr_length a → 0 ≤ j < arr_length a →
  arr_swap a i j =
    mkArray (<[Z.to_nat j:=arr_get a i]> (<[Z.to_nat i:=arr_get a j]> (items a)))
            (props a).
Proof.
  intros Hi Hj. unfold arr_swap.
  rewrite (arr_set_in_range a i) by done.
  rewrite arr_set_in_range; [done|].
  unfold arr_length in *; simpl. by rewrite length_insert.
Qed.

Lemma arr_length_swap a i j :
  0 ≤ i < arr_length a → 0 ≤ j < arr_length a →
  arr_length (arr_swap a i j) = arr_length a.
Proof.
  intros Hi Hj. rewrite arr_swap_in_range by done.
  unfold arr_length; simpl. by rewrite !length_insert.
Qed.

Lemma arr_swap_perm a i j :
  0 ≤ i < arr_length a → 0 ≤ j < arr_length a →
  items (arr_swap a i j) ≡ₚ items a.
Proof.
  intros Hi Hj. rewrite arr_swap_in_range by done. simpl.
  apply Permutation_insert_swap; by apply arr_get_lookup.
Qed.

Lemma arr_swap_props a i j :
  0 ≤ i < arr_length a → 0 ≤ j < arr_length a →
  props (arr_swap a i j) = props a.
Proof. intros Hi Hj. by rewrite arr_swap_in_range. Qed.

(** Reading a slot after an in-range swap. *)
Lemma arr_get_swap a i j k :
  0 ≤ i < arr_length a → 0 ≤ j < arr_length a → 0 ≤ k →
  arr_get (arr_swap a i j) k =
    if decide (k = j) then arr_get a i
    else if decide (k = i) then arr_get a j
    else arr_get a k.
Proof.
  intros Hi Hj Hk. rewrite arr_swap_in_range by done.
  unfold arr_get at 1. rewrite decide_True by done. simpl.
  unfold arr_length in *.
  destruct (decide (k = j)) as [->|Hkj].
  { rewrite list_lookup_insert_eq; [done|]. rewrite length_insert. lia. }
  rewrite list_lookup_insert_ne by lia.
  destruct (decide (k = i)) as [->|Hki].
  { rewrite list_lookup_insert_eq; [done|]. lia. }
  rewrite list_lookup_insert_ne by lia.
  unfold arr_get. by rewrite decide_True by done.
Qed.

(** In range, the order of the two indices of a swap does not matter. *)
Lemma arr_swap_sym a i j :
  0 ≤ i < arr_length a → 0 ≤ j < arr_length a →
  arr_swap a i j = arr_swap a j i.
Proof.
  intros Hi Hj. rewrite !arr_swap_in_range by done. f_equal.
  destruct (decide (i = j)) as [->|Hij]; [done|].
  apply list_insert_insert_ne. lia.
Qed.

Lemma arr_indexOf_Some a v i :
  arr_indexOf a v = i → i ≠ -1 →
  0 ≤ i < arr_length a ∧ arr_get a i = v ∧
  ∀ k, 0 ≤ k < i → arr_get a k ≠ v.
Proof.
  unfold arr_indexOf. intros Hfind Hi.
  destruct (list_find _ _) as [[n x]|] eqn:Hf; [|congruence].
  apply list_find_Some in Hf as (Hn & -> & Hfirst). subst i.
  pose proof (lookup_lt_Some _ _ _ Hn) as Hlt.
  split; [unfold arr_length; lia|].
  split; [by apply arr_get_of_lookup|].
  intros k Hk Heq.
  destruct (lookup_lt_is_Some_2 (items a) (Z.to_nat k)) as [y Hy]; [lia|].
  apply (Hfirst _ _ Hy); [lia|].
  apply arr_get_of_lookup in Hy. rewrite Z2Nat.id in Hy by lia. congruence.
Qed.

Lemma arr_indexOf_None a v : arr_indexOf a v = -1 ↔ v ∉ items a.
Proof.
  unfold arr_indexOf.
  destruct (list_find _ _) as [[n x]|] eqn:Hf.
  - apply list_find_Some in Hf as (Hn & -> & _).
    split; [lia|]. intros Hnot. destruct Hnot.
    by eapply list_elem_of_lookup_2.
  - apply list_find_None in Hf. rewrite Forall_forall in Hf.
    split; [|done]. intros _ Hin. by apply (Hf _ Hin).
Qed.

(** The first index of [v] is [i] when [i] holds [v] and is the only slot
    that does. *)
Lemma arr_indexOf_unique a v i :
  0 ≤ i < arr_length a → arr_get a i = v →
  (∀ k, 0 ≤ k < arr_length a → arr_get a k = v → k = i) →
  arr_indexOf a v = i.
Proof.
  intros Hi Hv Huniq. unfold arr_indexOf.
  destruct (list_find _ _) as [[n x]|] eqn:Hf.
  - apply list_find_Some in Hf as (Hn & -> & _).
    pose proof (lookup_lt_Some _ _ _ Hn).
    apply Huniq; [unfold arr_length; lia|]. by apply arr_get_of_lookup.
  - apply list_find_None in Hf. rewrite Forall_forall in Hf.
    destruct (Hf (arr_get a i)); [|done].
    eapply list_elem_of_lookup_2. by apply arr_get_lookup.
Qed.
End array_facts.

(** ** The solved layout and [isSolved] *)

Section solved_facts.
Implicit Types (a b : JsArray) (i n : Z).

(** Two arrays of one length with the same slots have the same elements. *)
Lemma items_ext a b :
  arr_length a = arr_length b →
  (∀ i, 0 ≤ i < arr_length a → arr_get a i = arr_get b i) →
  items a = items b.
Proof.
  intros Hlen Hget. apply list_eq. intros k.
  destruct (decide (Z.of_nat k < arr_length a)) as [Hk|Hk].
  - pose proof (arr_get_lookup a (Z.of_nat k)) as Ha.
    pose proof (arr_get_lookup b (Z.of_nat k)) as Hb.
    rewrite Nat2Z.id in Ha, Hb.
    rewrite Ha, Hb by lia. f_equal. apply Hget. lia.
  - unfold arr_length in *. by rewrite !lookup_ge_None_2 by lia.
Qed.

Lemma length_solved_items n : 1 ≤ n → length (solved_items n) = Z.to_nat n.
Proof.
  intros Hn. unfold solved_items.
  rewrite length_app, length_fmap, length_seqZ. simpl. lia.
Qed.

Lemma arr_length_solved_items n :
  1 ≤ n → arr_length (arr_of (solved_items n)) = n.
Proof.
  intros Hn. unfold arr_length; simpl. rewrite length_solved_items by done. lia.
Qed.

Lemma arr_get_solved_tile n i :
  0 ≤ i < n - 1 → arr_get (arr_of (solved_items n)) i = JNum (i + 1).
Proof.
  intros Hi. rewrite <-(Z2Nat.id i) at 1 by lia.
  apply arr_get_of_lookup. simpl. unfold solved_items.
  rewrite lookup_app_l by (rewrite length_fmap, length_seqZ; lia).
  rewrite list_lookup_fmap, lookup_seqZ_lt by lia. simpl.
  do 2 f_equal. lia.
Qed.

Lemma arr_get_solved_blank n :
  1 ≤ n → arr_get (arr_of (solved_items n)) (n - 1) = JNull.
Proof.
  intros Hn. rewrite <-(Z2Nat.id (n - 1)) at 1 by lia.
  apply arr_get_of_lookup. simpl. unfold solved_items.
  rewrite lookup_app_r by (rewrite length_fmap, length_seqZ; lia).
  rewrite length_fmap, length_seqZ.
  by replace (Z.to_nat (n - 1) - Z.to_nat (n - 1))%nat with 0%nat by lia.
Qed.

(** What [Array.from] and the write of [null] build is the solved layout
    written out. *)
Lemma solvedBoard_eq n : 1 ≤ n → solvedBoard n = arr_of (solved_items n).
Proof.
  intros Hn. unfold solvedBoard.
  assert (arr_length (array_from n (λ i, JNum (i + 1))) = n) as Hlen.
  { unfold arr_length; simpl. rewrite length_fmap, length_seqZ. lia. }
  rewrite arr_set_in_range by lia. unfold arr_of. f_equal. simpl.
  assert (seqZ 0 n = seqZ 0 (n - 1) ++ seqZ (n - 1) 1) as ->.
  { replace n with ((n - 1) + 1) at 1 by lia. by rewrite seqZ_app by lia. }
  rewrite fmap_app.
  rewrite insert_app_r_alt by (rewrite length_fmap, length_seqZ; lia).
  rewrite length_fmap, length_seqZ.
  replace (Z.to_nat (n - 1) - Z.to_nat (n - 1))%nat with 0%nat by lia.
  unfold solved_items. f_equal.
  rewrite <-(fmap_add_seqZ 1 0), <-list_fmap_compose.
  apply list_fmap_ext. intros _ x _. simpl. f_equal. lia.
Qed.

(** [isSolved] as the loop reads: every slot below the last holds its
    index plus one, and the slot [length - 1] reads [null]. *)
Lemma isSolved_spec b :
  isSolved b = true ↔
  (∀ i, 0 ≤ i ≤ arr_length b - 2 → arr_get b i = JNum (i + 1)) ∧
  arr_get b (arr_length b - 1) = JNull.
Proof.
  unfold isSolved.
  destruct (forallb _ _) eqn:Hall.
  - rewrite bool_decide_eq_true.
    apply Is_true_true_2, forallb_True in Hall.
    rewrite Forall_seqZ in Hall.
    split; [|tauto]. intros Hlast. split; [|done].
    intros i Hi. specialize (Hall i). rewrite bool_decide_spec in Hall.
    apply Hall. lia.
  - split; [done|]. intros [Htiles _].
    assert (Is_true (forallb (λ i, bool_decide (arr_get b i = JNum (i + 1)))
                       (seqZ 0 (arr_length b - 1)))) as Hall'.
    { apply forallb_True, Forall_seqZ. intros i Hi.
      apply bool_decide_pack, Htiles. lia. }
    rewrite Hall in Hall'. done.
Qed.

Lemma isSolved_solved_items b :
  0 < arr_length b →
  isSolved b = true ↔ items b = solved_items (arr_length b).
Proof.
  intros Hpos. rewrite isSolved_spec. split.
  - intros [Htiles Hlast].
    change (items b = items (arr_of (solved_items (arr_length b)))).
    apply items_ext.
    { by rewrite arr_length_solved_items by lia. }
    intros i Hi. destruct (decide (i = arr_length b - 1)) as [->|Hne].
    + by rewrite arr_get_solved_blank by lia.
    + rewrite arr_get_solved_tile by lia. apply Htiles. lia.
  - intros Heq.
    assert (∀ i, 0 ≤ i → arr_get b i =
              arr_get (arr_of (solved_items (arr_length b))) i) as Hget.
    { intros i Hi. unfold arr_get. rewrite !decide_True by done.
      simpl. by rewrite <-Heq. }
    split.
    + intros i Hi. rewrite Hget by lia. apply arr_get_solved_tile. lia.
    + rewrite Hget by lia. apply arr_get_solved_blank. lia.
Qed.

Lemma isSolved_solvedBoard n : 1 ≤ n → isSolved (solvedBoard n) = true.
Proof.
  intros Hn. rewrite solvedBoard_eq by done.
  apply isSolved_solved_items; rewrite arr_length_solved_items by done;
    [lia|done].
Qed.
End solved_facts.

(** ** Slot coordinates *)

Section coordinates.
Variable s : Z.
Hypothesis s_pos : 0 < s.

(** A non-negative index is [x + s * y] with [x] its column. *)
Lemma slot_decompose i :
  0 ≤ i → i = slot_x s i + s * slot_y s i ∧ 0 ≤ slot_x s i < s.
Proof.
  intros Hi. unfold slot_x, slot_y.
  rewrite Z.rem_mod_nonneg by lia.
  pose proof (Z.div_mod i s) as Hdm.
  pose proof (Z.mod_pos_bound i s). lia.
Qed.

Lemma slot_y_range i : 0 ≤ i < s * s → 0 ≤ slot_y s i < s.
Proof.
  intros Hi. unfold slot_y. split.
  - apply Z.div_pos; lia.
  - apply Z.div_lt_upper_bound; lia.
Qed.

Lemma slot_compose x y :
  0 ≤ x < s → 0 ≤ y →
  slot_x s (x + s * y) = x ∧ slot_y s (x + s * y) = y.
Proof.
  intros Hx Hy. unfold slot_x, slot_y.
  rewrite Z.rem_mod_nonneg by nia. split.
  - symmetry. apply (Z.mod_unique _ _ y); lia.
  - symmetry. apply (Z.div_unique _ _ _ x); lia.
Qed.

(** Coordinates of a negative index: [%] gives a column in [(-s, 0]],
    [Math.floor] a row below [0]. *)
Lemma slot_negative i : i < 0 → -s < slot_x s i ≤ 0 ∧ slot_y s i < 0.
Proof.
  intros Hi. unfold slot_x, slot_y. split.
  - pose proof (Z.rem_opp_l (- i) s) as Hopp.
    rewrite Z.opp_involutive in Hopp.
    pose proof (Z.rem_bound_pos (- i) s). lia.
  - apply Z.div_lt_upper_bound; lia.
Qed.

Lemma manhattan_self i : manhattan s i i = 0.
Proof. unfold manhattan. lia. Qed.

Lemma manhattan_sym i j : manhattan s i j = manhattan s j i.
Proof. unfold manhattan. lia. Qed.
End coordinates.

(** ** One iteration of the shuffle walk *)

Lemma elem_of_possibleMoves s i d :
  d ∈ possibleMoves s i ↔
  match d with
  | DOWN => slot_y s i > 0
  | UP => slot_y s i < s - 1
  | RIGHT => slot_x s i > 0
  | LEFT => slot_x s i < s - 1
  end.
Proof.
  unfold possibleMoves. rewrite !elem_of_app.
  destruct (decide (slot_y s i > 0)), (decide (slot_y s i < s - 1)),
    (decide (slot_x s i > 0)), (decide (slot_x s i < s - 1));
    destruct d; rewrite ?elem_of_nil, ?list_elem_of_singleton;
    intuition (discriminate || lia || auto).
Qed.

(** ** Rounding to a double *)

Lemma Qround_even_ge (z : Q) (K : Z) : (inject_Z K <= z)%Q → K ≤ Qround_even z.
Proof.
  intros Hz. unfold Qround_even.
  assert (K ≤ Qfloor z) as Hf.
  { rewrite <-(Qfloor_Z K). by apply Qfloor_resp_le. }
  destruct (Qcompare _ _); [destruct (Z.even _)|..]; lia.
Qed.

Lemma Qround_even_below (z : Q) (K : Z) :
  (z < inject_Z K - (1 # 2))%Q → Qround_even z ≤ K - 1.
Proof.
  intros Hz. unfold Qround_even.
  pose proof (Qfloor_le z) as Hfl.
  assert (Qfloor z ≤ K - 1) as Hf.
  { assert (inject_Z (Qfloor z) < inject_Z K)%Q as Hlt by lra.
    rewrite <-Zlt_Qlt in Hlt. lia. }
  destruct (Qcompare _ _) eqn:Hc; [| lia |].
  - apply Qeq_alt in Hc.
    assert (inject_Z (Qfloor z + 1) < inject_Z K)%Q as Hlt.
    { rewrite inject_Z_plus. change (inject_Z 1) with 1%Q. lra. }
    rewrite <-Zlt_Qlt in Hlt. destruct (Z.even _); lia.
  - apply Qgt_alt in Hc.
    assert (inject_Z (Qfloor z + 1) < inject_Z K)%Q as Hlt.
    { rewrite inject_Z_plus. change (inject_Z 1) with 1%Q. lra. }
    rewrite <-Zlt_Qlt in Hlt. lia.
Qed.

Lemma round_shift_nonneg F : 0 ≤ round_shift F.
Proof. unfold round_shift. lia. Qed.

Lemma round_shift_bound F m : 53 ≤ m → F < 2 ^ m → round_shift F ≤ m - 53.
Proof.
  intros Hm HF. unfold round_shift.
  destruct (decide (0 < F)) as [Hpos|Hneg].
  - assert (Z.log2 F < m) by (apply Z.log2_lt_pow2; lia). lia.
  - rewrite Z.log2_nonpos by lia. lia.
Qed.

Lemma round_shift_pos F :
  0 < round_shift F → 2 ^ (round_shift F + 52) ≤ F.
Proof.
  unfold round_shift. intros Hd.
  assert (0 < F) as Hpos.
  { destruct (decide (0 < F)); [done|]. rewrite Z.log2_nonpos in Hd by lia. lia. }
  replace (Z.max 0 (Z.log2 F + 1 - 53) + 52) with (Z.log2 F) by lia.
  by apply Z.log2_spec.
Qed.

Lemma double_unit_split : double_unit = 2 ^ 1021 * 2 ^ 53.
Proof. unfold double_unit. by rewrite <-Z.pow_add_r by lia. Qed.

Lemma double_unit_pos : 0 < double_unit.
Proof. unfold double_unit. by apply Z.pow_pos_nonneg. Qed.

(** The spacing [2 ^ d] of the doubles near [y] divides the unit. *)
Lemma double_unit_factor d :
  0 ≤ d ≤ 1074 → double_unit = 2 ^ (1074 - d) * 2 ^ d.
Proof. intros Hd. unfold double_unit. rewrite <-Z.pow_add_r by lia. f_equal. lia. Qed.

Lemma inject_Z_lt a b : (inject_Z a < inject_Z b)%Q → a < b.
Proof. by rewrite <-Zlt_Qlt. Qed.

Lemma inject_Z_le a b : (inject_Z a <= inject_Z b)%Q → a ≤ b.
Proof. by rewrite <-Zle_Qle. Qed.

Lemma round_double_pos_lt (x : Q) (n : Z) :
  (0 <= x)%Q → 1 ≤ n ≤ 2 ^ 53 →
  (x <= inject_Z n * (1 - (1 # 9007199254740992)))%Q →
  (round_double_pos x < inject_Z n)%Q.
Proof.
  intros Hx Hn Hmax. unfold round_double_pos.
  set (U := double_unit). set (y := (x * inject_Z U)%Q).
  set (F := Qfloor y). set (d := round_shift F). set (D := 2 ^ d).
  set (V := 2 ^ 1021).
  pose proof double_unit_pos as HU. fold U in HU.
  assert (0 < V) as HV by (by apply Z.pow_pos_nonneg).
  assert (U = V * 2 ^ 53) as HUV by apply double_unit_split.
  assert (y <= inject_Z (n * U - n * V))%Q as Hy.
  { unfold y. eapply Qle_trans.
    - apply Qmult_le_compat_r; [exact Hmax|]. rewrite <-(Zle_Qle 0). lia.
    - rewrite HUV. unfold Zminus. rewrite inject_Z_plus, inject_Z_opp, !inject_Z_mult.
      change (inject_Z (2 ^ 53)) with (9007199254740992 # 1).
      apply Qle_lteq. right. field. }
  assert (F < n * U) as HF.
  { apply inject_Z_lt. eapply Qle_lt_trans; [apply Qfloor_le|].
    fold y. eapply Qle_lt_trans; [exact Hy|]. rewrite <-Zlt_Qlt. nia. }
  pose proof (round_shift_nonneg F) as Hd0. fold d in Hd0.
  assert (d ≤ 1074) as Hd1.
  { unfold d. replace 1074 with (1127 - 53) by lia.
    apply round_shift_bound; [lia|].
    eapply Z.lt_le_trans; [exact HF|].
    replace (2 ^ 1127) with (2 ^ 53 * U)
      by (unfold U, double_unit; by rewrite <-Z.pow_add_r by lia).
    nia. }
  assert (0 < D) as HD by (by apply Z.pow_pos_nonneg).
  pose proof (double_unit_factor d ltac:(lia)) as Hfac. fold U D in Hfac.
  set (W := 2 ^ (1074 - d)) in *.
  assert (D < 2 * (n * V)) as Hhalf.
  { destruct (decide (d = 0)) as [Hz|Hnz].
    - unfold D. rewrite Hz. simpl. nia.
    - pose proof (round_shift_pos F ltac:(fold d; lia)) as Hbig. fold d in Hbig.
      rewrite Z.pow_add_r in Hbig by lia. fold D in Hbig.
      assert (D * 2 ^ 52 < n * V * 2 ^ 53) as Hlt by (rewrite <-Z.mul_assoc, <-HUV; lia).
      change (2 ^ 53) with (2 * 2 ^ 52) in Hlt.
      assert (0 < 2 ^ 52) by done. nia. }
  assert (Qround_even (y / inject_Z D) ≤ n * W - 1) as Hrn.
  { apply Qround_even_below. apply Qlt_shift_div_r; [by rewrite <-(Zlt_Qlt 0)|].
    assert (inject_Z (n * W) * inject_Z D == inject_Z (n * U))%Q as Heq.
    { rewrite <-inject_Z_mult. rewrite Hfac. f_equiv. lia. }
    assert (inject_Z D < 2 * inject_Z (n * V))%Q as Hhalf'.
    { change 2%Q with (inject_Z 2). rewrite <-inject_Z_mult, <-Zlt_Qlt. exact Hhalf. }
    assert (inject_Z (n * U - n * V) == inject_Z (n * U) - inject_Z (n * V))%Q as Hsub.
    { unfold Zminus. by rewrite inject_Z_plus, inject_Z_opp. }
    rewrite Hsub in Hy. lra. }
  apply Qlt_shift_div_r; [by rewrite <-(Zlt_Qlt 0)|].
  rewrite <-inject_Z_mult, <-Zlt_Qlt. rewrite Hfac. nia.
Qed.

Lemma round_double_pos_ge (x : Q) (k : Z) :
  0 ≤ k → (inject_Z k <= x)%Q → (x < inject_Z (2 ^ 53))%Q →
  (inject_Z k <= round_double_pos x)%Q.
Proof.
  intros Hk Hlo Hhi. unfold round_double_pos.
  set (U := double_unit). set (y := (x * inject_Z U)%Q).
  set (F := Qfloor y). set (d := round_shift F). set (D := 2 ^ d).
  pose proof double_unit_pos as HU. fold U in HU.
  assert (0 < inject_Z U)%Q as HUq by (by rewrite <-(Zlt_Qlt 0)).
  assert (F < 2 ^ 53 * U) as HF.
  { apply inject_Z_lt. eapply Qle_lt_trans; [apply Qfloor_le|].
    fold y. unfold y. rewrite inject_Z_mult. by apply Qmult_lt_compat_r. }
  pose proof (round_shift_nonneg F) as Hd0. fold d in Hd0.
  assert (d ≤ 1074) as Hd1.
  { unfold d. replace 1074 with (1127 - 53) by lia.
    apply round_shift_bound; [lia|].
    replace (2 ^ 1127) with (2 ^ 53 * U)
      by (unfold U, double_unit; by rewrite <-Z.pow_add_r by lia).
    done. }
  assert (0 < D) as HD by (by apply Z.pow_pos_nonneg).
  pose proof (double_unit_factor d ltac:(lia)) as Hfac. fold U D in Hfac.
  set (W := 2 ^ (1074 - d)) in *.
  assert (k * W ≤ Qround_even (y / inject_Z D)) as Hrn.
  { apply Qround_even_ge. apply Qle_shift_div_l; [by rewrite <-(Zlt_Qlt 0)|].
    rewrite <-inject_Z_mult. replace (k * W * D) with (k * U) by (rewrite Hfac; lia).
    rewrite inject_Z_mult. unfold y. by apply Qmult_le_compat_r; [|apply Qlt_le_weak]. }
  apply Qle_shift_div_l; [done|].
  rewrite <-inject_Z_mult, <-Zle_Qle. rewrite Hfac. nia.
Qed.

Lemma round_double_nonneg (x : Q) :
  (0 <= x)%Q → round_double x = round_double_pos x.
Proof.
  intros Hx. unfold round_double.
  by destruct (Qle_bool 0 x) eqn:Hb; [|rewrite <-Qle_bool_iff, Hb in Hx].
Qed.

(** The largest double below [1] is [1 - 2 ^ -53]. *)
Lemma valid_draw_max (r : Q) :
  valid_draw r → (r <= 1 - (1 # 9007199254740992))%Q.
Proof.
  intros (Hr0 & Hr1 & Hdbl). unfold is_double in Hdbl.
  rewrite round_double_nonneg in Hdbl by done. unfold round_double_pos in Hdbl.
  set (U := double_unit) in *. set (y := (r * inject_Z U)%Q) in *.
  set (F := Qfloor y) in *. set (d := round_shift F) in *.
  pose proof double_unit_pos as HU. fold U in HU.
  assert (0 < inject_Z U)%Q as HUq by (by rewrite <-(Zlt_Qlt 0)).
  assert (U = 2 * 2 ^ 1073) as HU2 by (unfold U, double_unit; by rewrite <-(Z.pow_succ_r 2 1073)).
  destruct (decide (F < 2 ^ 1073)) as [Hsmall|Hbig].
  - assert (y < inject_Z (2 ^ 1073))%Q as Hy.
    { eapply Qlt_le_trans; [apply (Qlt_floor y)|]. fold F. rewrite <-Zle_Qle. lia. }
    assert (r < 1 # 2)%Q as Hhalf.
    { apply Qmult_lt_r with (z := inject_Z U); [done|]. fold y.
      eapply Qlt_le_trans; [exact Hy|]. rewrite HU2, inject_Z_mult.
      apply Qle_lteq. right. change (inject_Z 2) with 2%Q. field. }
    lra.
  - assert (F < U) as HF.
    { apply inject_Z_lt. eapply Qle_lt_trans; [apply Qfloor_le|]. fold y. unfold y.
      rewrite <-(Qmult_1_l (inject_Z U)) at 2. by apply Qmult_lt_compat_r. }
    assert (Z.log2 F = 1073) as Hlog.
    { apply Z.log2_unique; [lia|]. split; [lia|].
      change (Z.succ 1073) with 1074. exact HF. }
    assert (d = 1021) as Hd by (unfold d, round_shift; rewrite Hlog; lia).
    rewrite Hd in Hdbl. set (V := 2 ^ 1021) in *.
    set (rn := Qround_even (y / inject_Z V)) in *.
    assert (U = V * 2 ^ 53) as HUV by apply double_unit_split.
    assert (0 < V) as HV by (by apply Z.pow_pos_nonneg).
    assert (rn * V < U) as Hlt.
    { apply inject_Z_lt. apply Qmult_lt_r with (z := (/ inject_Z U)%Q).
      - by apply Qinv_lt_0_compat.
      - fold (Qdiv (inject_Z (rn * V)) (inject_Z U)). rewrite Hdbl.
        rewrite Qmult_inv_r; [done|]. intros Hz. rewrite Hz in HUq. by apply Qlt_irrefl in HUq. }
    assert (rn ≤ 2 ^ 53 - 1) as Hrn by nia.
    rewrite <-Hdbl. apply Qle_shift_div_r; [done|].
    eapply Qle_trans.
    + rewrite <-Zle_Qle. apply (Z.mul_le_mono_nonneg_r rn (2 ^ 53 - 1) V); [lia|exact Hrn].
    + rewrite HUV. unfold Zminus. rewrite !inject_Z_mult, inject_Z_plus.
      change (inject_Z (2 ^ 53)) with (9007199254740992 # 1).
      change (inject_Z (- (1))) with (- (1))%Q.
      apply Qle_lteq. right. field.
Qed.

(** The index [Math.floor(r * n)] of a draw [r] among [n] alternatives. *)
Lemma pick_index_range (r : Q) (n : Z) :
  valid_draw r → 1 ≤ n ≤ 2 ^ 53 →
  0 ≤ Qfloor (double_mul r (inject_Z n)) < n.
Proof.
  intros Hr Hn. pose proof (valid_draw_max r Hr) as Hmax.
  destruct Hr as (Hr0 & Hr1 & _).
  assert (0 < inject_Z n)%Q as Hnq by (rewrite <-(Zlt_Qlt 0); lia).
  assert (0 <= r * inject_Z n)%Q as Hx by (apply Qmult_le_0_compat; [done|by apply Qlt_le_weak]).
  unfold double_mul. rewrite round_double_nonneg by done. split.
  - rewrite <-(Qfloor_Z 0). apply Qfloor_resp_le.
    apply (round_double_pos_ge _ 0); [done|done|].
    eapply Qlt_le_trans; [|rewrite <-Zle_Qle; apply Hn].
    rewrite <-(Qmult_1_l (inject_Z n)) at 2. by apply Qmult_lt_compat_r.
  - apply inject_Z_lt. eapply Qle_lt_trans; [apply Qfloor_le|].
    apply round_double_pos_lt; [done|done|].
    rewrite (Qmult_comm (inject_Z n)). by apply Qmult_le_compat_r; [|apply Qlt_le_weak].
Qed.

(** Draws whose exact product lies in [[k, (k + 1) (1 - 2 ^ -53)]] give index [k]. *)
Lemma pick_index_interval (r : Q) (n k : Z) :
  (0 <= r)%Q → 0 ≤ k < 2 ^ 53 →
  (inject_Z k <= r * inject_Z n)%Q →
  (r * inject_Z n <= inject_Z (k + 1) * (1 - (1 # 9007199254740992)))%Q →
  Qfloor (double_mul r (inject_Z n)) = k.
Proof.
  intros Hr0 Hk Hlo Hhi.
  assert (0 <= r * inject_Z n)%Q as Hx.
  { eapply Qle_trans; [|exact Hlo]. rewrite <-(Zle_Qle 0). lia. }
  unfold double_mul. rewrite round_double_nonneg by done.
  assert (r * inject_Z n < inject_Z (2 ^ 53))%Q as Hbig.
  { eapply Qle_lt_trans; [exact Hhi|].
    assert (inject_Z (k + 1) <= inject_Z (2 ^ 53))%Q as H1 by (rewrite <-Zle_Qle; lia).
    assert (0 < inject_Z (k + 1))%Q as H2 by (rewrite <-(Zlt_Qlt 0); lia).
    nra. }
  pose proof (round_double_pos_ge _ k ltac:(lia) Hlo Hbig) as Hge.
  pose proof (round_double_pos_lt _ (k + 1) Hx ltac:(lia) Hhi) as Hlt.
  apply Z.le_antisymm.
  - apply Z.lt_succ_r. apply inject_Z_lt.
    eapply Qle_lt_trans; [apply Qfloor_le|]. exact Hlt.
  - rewrite <-(Qfloor_Z k). by apply Qfloor_resp_le.
Qed.

Lemma possibleMoves_length s i : (length (possibleMoves s i) ≤ 4)%nat.
Proof.
  unfold possibleMoves. rewrite !length_app.
  destruct (decide (slot_y s i > 0)), (decide (slot_y s i < s - 1)),
    (decide (slot_x s i > 0)), (decide (slot_x s i < s - 1)); simpl; lia.
Qed.

Lemma pickMove_Some (r : Q) (moves : list Direction) :
  valid_draw r → moves ≠ [] → (length moves ≤ 4)%nat →
  ∃ d, pickMove r moves = Some d ∧ d ∈ moves.
Proof.
  intros Hr Hne Hfour. unfold pickMove.
  assert (1 ≤ Z.of_nat (length moves) ≤ 2 ^ 53) as Hlen.
  { split; [destruct moves; [done|simpl; lia]|].
    transitivity 4; [lia|done]. }
  pose proof (pick_index_range r _ Hr Hlen) as Hk.
  rewrite decide_True by lia.
  destruct (lookup_lt_is_Some_2 moves
              (Z.to_nat (Qfloor (double_mul r (inject_Z (Z.of_nat (length moves)))))))
    as [d Hd]; [lia|].
  exists d. split; [done|]. by eapply list_elem_of_lookup_2.
Qed.

(** A position [k] of the array is picked by every draw whose exact
    product with the length lies in [[k, (k + 1) (1 - 2 ^ -53)]]. *)
Lemma pickMove_interval (r : Q) (moves : list Direction) (k : nat) d :
  (0 <= r)%Q → (length moves ≤ 4)%nat →
  moves !! k = Some d →
  (inject_Z (Z.of_nat k) <= r * inject_Z (Z.of_nat (length moves)))%Q →
  (r * inject_Z (Z.of_nat (length moves))
     <= inject_Z (Z.of_nat k + 1) * (1 - (1 # 9007199254740992)))%Q →
  pickMove r moves = Some d.
Proof.
  intros Hr0 Hfour Hk Hlo Hhi. unfold pickMove.
  apply lookup_lt_Some in Hk as Hlt.
  rewrite (pick_index_interval r _ (Z.of_nat k)); [|done| |done|done].
  - rewrite decide_True by lia. by rewrite Nat2Z.id.
  - split; [lia|]. apply Z.lt_le_trans with 4; [lia|done].
Qed.

Section walk_step.
Variable s : Z.
Hypothesis s_ge_2 : 2 ≤ s.

Lemma possibleMoves_nonempty i : 0 ≤ i < s * s → possibleMoves s i ≠ [].
Proof.
  intros Hi Hnil. pose proof (slot_y_range s ltac:(lia) i Hi) as Hy.
  destruct (decide (slot_y s i > 0)) as [Hd|Hd].
  - assert (DOWN ∈ possibleMoves s i) as Hin by by apply elem_of_possibleMoves.
    rewrite Hnil in Hin. by apply elem_of_nil in Hin.
  - assert (UP ∈ possibleMoves s i) as Hin
      by (apply elem_of_possibleMoves; lia).
    rewrite Hnil in Hin. by apply elem_of_nil in Hin.
Qed.

(** Coordinates of the slot an enumerated direction leads to. *)
Lemma target_coords i d :
  0 ≤ i < s * s → d ∈ possibleMoves s i →
  let t := targetIndex s i (Some d) in
  0 ≤ t < s * s ∧
  match d with
  | DOWN => slot_x s t = slot_x s i ∧ slot_y s t = slot_y s i - 1
  | UP => slot_x s t = slot_x s i ∧ slot_y s t = slot_y s i + 1
  | RIGHT => slot_x s t = slot_x s i - 1 ∧ slot_y s t = slot_y s i
  | LEFT => slot_x s t = slot_x s i + 1 ∧ slot_y s t = slot_y s i
  end.
Proof.
  intros Hi Hd. apply elem_of_possibleMoves in Hd.
  destruct (slot_decompose s ltac:(lia) i ltac:(lia)) as [Hdec Hx].
  pose proof (slot_y_range s ltac:(lia) i Hi) as Hy.
  set (x := slot_x s i) in *. set (y := slot_y s i) in *.
  destruct d; simpl.
  - replace (i + s) with (x + s * (y + 1)) by lia.
    split; [nia|]. apply slot_compose; lia.
  - replace (i - s) with (x + s * (y - 1)) by lia.
    split; [nia|]. apply slot_compose; lia.
  - replace (i + 1) with ((x + 1) + s * y) by lia.
    split; [nia|]. apply slot_compose; lia.
  - replace (i - 1) with ((x - 1) + s * y) by lia.
    split; [nia|]. apply slot_compose; lia.
Qed.

(** Every enumerated direction leads to an in-bounds slot orthogonally
    adjacent to the empty one. *)
Lemma target_adjacent i d :
  0 ≤ i < s * s → d ∈ possibleMoves s i →
  0 ≤ targetIndex s i (Some d) < s * s ∧
  manhattan s (targetIndex s i (Some d)) i = 1.
Proof.
  intros Hi Hd. destruct (target_coords i d Hi Hd) as [Ht Hc].
  split; [done|]. unfold manhattan.
  destruct d; destruct Hc as [-> ->]; lia.
Qed.
End walk_step.

(** ** The board invariant *)

Section invariant_facts.
Implicit Types (b : JsArray) (l : list JsVal) (v : JsVal) (n : Z).

Lemma occurrences_perm v l l' :
  l ≡ₚ l' → occurrences v l = occurrences v l'.
Proof. intros Hp. unfold occurrences. by rewrite Hp. Qed.

Lemma occurrences_absent v l : v ∉ l → occurrences v l = 0%nat.
Proof.
  unfold occurrences. induction l as [|x l IH]; intros Hnot; [done|].
  apply not_elem_of_cons in Hnot as [Hne Hnot].
  rewrite filter_cons_False by done. by apply IH.
Qed.

Lemma occurrences_NoDup v l : NoDup l → v ∈ l → occurrences v l = 1%nat.
Proof.
  induction 1 as [|x l Hx Hnd IH]; intros Hin.
  - by apply elem_of_nil in Hin.
  - unfold occurrences. rewrite filter_cons. apply elem_of_cons in Hin.
    destruct (decide (x = v)) as [->|Hne].
    + simpl. f_equal. by apply occurrences_absent.
    + destruct Hin as [->|Hin]; [done|]. by apply IH.
Qed.

Lemma NoDup_solved_items n : NoDup (solved_items n).
Proof.
  unfold solved_items. apply NoDup_app. split_and!.
  - apply (NoDup_fmap_2 _), NoDup_seqZ.
  - intros x [k [-> _]]%list_elem_of_fmap Hin.
    by apply list_elem_of_singleton in Hin.
  - apply NoDup_singleton.
Qed.

Lemma elem_of_solved_items n x :
  x ∈ solved_items n ↔ x = JNull ∨ ∃ k : Z, x = JNum k ∧ 1 ≤ k ≤ n - 1.
Proof.
  unfold solved_items.
  rewrite elem_of_app, list_elem_of_singleton, list_elem_of_fmap.
  setoid_rewrite elem_of_seqZ. split.
  - intros [(k & -> & Hk) | ->]; [right; exists k; split; [done|lia]|by left].
  - intros [-> | (k & -> & Hk)]; [by right|left; exists k; split; [done|lia]].
Qed.

(** Any arrangement of the solved layout satisfies the invariant. *)
Lemma board_inv_of_perm n b : items b ≡ₚ solved_items n → board_inv n b.
Proof.
  intros Hp. unfold board_inv. split_and!.
  - rewrite (occurrences_perm _ _ _ Hp).
    apply occurrences_NoDup; [apply NoDup_solved_items|].
    apply elem_of_solved_items. by left.
  - intros k Hk. rewrite (occurrences_perm _ _ _ Hp).
    apply occurrences_NoDup; [apply NoDup_solved_items|].
    apply elem_of_solved_items. right. by exists k.
  - intros x Hx. apply elem_of_solved_items. by rewrite <-Hp.
Qed.

(** An arrangement of the solved layout has one empty slot. *)
Lemma perm_blank_unique n b i j :
  items b ≡ₚ solved_items n →
  0 ≤ i < arr_length b → 0 ≤ j < arr_length b →
  arr_get b i = JNull → arr_get b j = JNull → i = j.
Proof.
  intros Hp Hi Hj Hgi Hgj.
  assert (NoDup (items b)) as Hnd by (rewrite Hp; apply NoDup_solved_items).
  assert (Z.to_nat i = Z.to_nat j); [|lia].
  eapply NoDup_lookup; [done|..].
  - rewrite arr_get_lookup by done. by rewrite Hgi.
  - rewrite arr_get_lookup by done. by rewrite Hgj.
Qed.

Lemma perm_length n b :
  1 ≤ n → items b ≡ₚ solved_items n → arr_length b = n.
Proof.
  intros Hn Hp. unfold arr_length.
  rewrite Hp, length_solved_items by done. lia.
Qed.
End invariant_facts.

(** ** The shuffle walk *)


(** The walk reads the draws [c .. c + n - 1] only. *)
Lemma shuffle_loop_ext s rnd rnd' n c c' st :
  (∀ k, (k < n)%nat → rnd (c + k)%nat = rnd' (c' + k)%nat) →
  shuffle_loop s rnd n c st = shuffle_loop s rnd' n c' st.
Proof.
  revert c c' st. induction n as [|n IH]; intros c c' st Hext; [done|].
  simpl. pose proof (Hext 0%nat ltac:(lia)) as H0.
  rewrite !Nat.add_0_r in H0. rewrite H0. apply IH.
  intros k Hk. specialize (Hext (S k) ltac:(lia)).
  by rewrite <-!Nat.add_succ_comm in Hext.
Qed.

Section walk.
Variable s : Z.
Hypothesis s_ge_2 : 2 ≤ s.

Lemma walk_inv_length st : walk_inv s st → arr_length st.1 = s * s.
Proof. intros (Hp & _). apply perm_length; [nia|done]. Qed.

Lemma walk_inv_start : walk_inv s (walk_start s).
Proof.
  unfold walk_inv, walk_start, slide_reachable. simpl.
  rewrite solvedBoard_eq by nia. simpl.
  split; [done|]. split; [done|]. split; [nia|].
  split; [apply arr_get_solved_blank; nia|done].
Qed.

(** What one iteration does to a state satisfying the invariant. *)
Lemma shuffle_step_spec r st :
  valid_draw r → walk_inv s st →
  ∃ d, d ∈ possibleMoves s st.2 ∧
       pickMove r (possibleMoves s st.2) = Some d ∧
       0 ≤ targetIndex s st.2 (Some d) < s * s ∧
       manhattan s (targetIndex s st.2 (Some d)) st.2 = 1 ∧
       shuffle_step s r st =
         (arr_swap st.1 st.2 (targetIndex s st.2 (Some d)),
          targetIndex s st.2 (Some d)).
Proof.
  intros Hr Hinv. destruct st as [b blank].
  destruct Hinv as (_ & _ & Hblank & _). simpl in *.
  destruct (pickMove_Some r (possibleMoves s blank) Hr) as (d & Hpick & Hd).
  { by apply possibleMoves_nonempty. }
  { apply possibleMoves_length. }
  destruct (target_adjacent s s_ge_2 blank d Hblank Hd) as [Ht Hadj].
  exists d. do 4 (split; [done|]).
  unfold shuffle_step. cbv beta iota zeta. by rewrite Hpick.
Qed.

Lemma shuffle_step_inv r st :
  valid_draw r → walk_inv s st → walk_inv s (shuffle_step s r st).
Proof.
  intros Hr Hinv.
  destruct (shuffle_step_spec r st Hr Hinv)
    as (d & _ & _ & Ht & Hadj & ->).
  pose proof (walk_inv_length st Hinv) as Hlen.
  destruct Hinv as (Hp & Hprops & Hblank & Hnull & Hreach).
  set (t := targetIndex s st.2 (Some d)) in *.
  unfold walk_inv. simpl. split; [|split; [|split; [|split]]].
  - by rewrite arr_swap_perm by lia.
  - by rewrite arr_swap_props by lia.
  - done.
  - rewrite arr_get_swap by lia. by rewrite decide_True by done.
  - eapply rtc_r; [exact Hreach|].
    rewrite arr_swap_sym by lia. apply slide_intro; (lia || done).
Qed.

Lemma shuffle_loop_inv rnd n c st :
  valid_rng rnd → walk_inv s st → walk_inv s (shuffle_loop s rnd n c st).
Proof.
  intros Hrnd. revert c st. induction n as [|n IH]; intros c st Hinv; [done|].
  simpl. apply IH. apply shuffle_step_inv; [apply Hrnd|done].
Qed.

(** The board left by the walk is an arrangement of the solved layout
    that legal slides produce from it. *)
Lemma shuffle_walk_inv rnd c :
  valid_rng rnd →
  items (shuffle_walk s rnd c) ≡ₚ solved_items (s * s) ∧
  props (shuffle_walk s rnd c) = ∅ ∧
  slide_reachable s (shuffle_walk s rnd c).
Proof.
  intros Hrnd.
  destruct (shuffle_loop_inv rnd (walk_length s) c (walk_start s) Hrnd
              walk_inv_start) as (Hp & Hprops & _ & _ & Hreach).
  by split_and!.
Qed.
End walk.

Lemma shuffleBoard_unfold fuel s rnd c :
  shuffleBoard fuel s rnd c =
  if isSolved (shuffle_walk s rnd c)
  then match fuel with
       | O => None
       | S fuel' => shuffleBoard fuel' s rnd (c + walk_length s)%nat
       end
  else Some (shuffle_walk s rnd c).
Proof. by destruct fuel. Qed.

(** A board returned by [shuffleBoard] is the unsolved result of one of the
    successive walks. *)
Lemma shuffleBoard_Some fuel s rnd c b :
  shuffleBoard fuel s rnd c = Some b →
  isSolved b = false ∧
  ∃ k : nat, b = shuffle_walk s rnd (c + k * walk_length s)%nat.
Proof.
  revert c. induction fuel as [|fuel IH]; intros c; simpl;
    destruct (isSolved (shuffle_walk s rnd c)) eqn:Hsolved; intros Hret;
    simplify_eq.
  - split; [done|]. exists 0%nat. by rewrite Nat.add_0_r.
  - destruct (IH _ Hret) as (Hns & k & ->). split; [done|].
    exists (S k). f_equal. lia.
  - split; [done|]. exists 0%nat. by rewrite Nat.add_0_r.
Qed.

(** [shuffleBoard] returns as soon as one walk ends off the solved layout:
    when the walk of attempt [j] does, [j] recursive calls are enough. *)
Lemma shuffleBoard_returns s rnd j c :
  isSolved (shuffle_walk s rnd (c + j * walk_length s)%nat) = false →
  ∃ b, ∀ fuel, (j ≤ fuel)%nat → shuffleBoard fuel s rnd c = Some b.
Proof.
  revert c. induction j as [|j IH]; intros c Hj.
  - rewrite Nat.add_0_r in Hj. exists (shuffle_walk s rnd c).
    intros fuel _. destruct fuel; simpl; by rewrite Hj.
  - destruct (isSolved (shuffle_walk s rnd c)) eqn:Hsolved.
    + destruct (IH (c + walk_length s)%nat) as [b Hb].
      { rewrite <-Hj. do 2 f_equal. lia. }
      exists b. intros [|fuel] Hfuel; [lia|].
      simpl. rewrite Hsolved. apply Hb. lia.
    + exists (shuffle_walk s rnd c).
      intros fuel _. destruct fuel; simpl; by rewrite Hsolved.
Qed.

(** ** Solved-state detection *)

(** C2.  For every board (of at least one slot), [isSolved] answers true
    exactly when every slot [i] from [0] to [length - 2] holds [i + 1] and
    the last slot holds the empty marker; equivalently, exactly when the
    board is [[1, 2, ..., n - 1, empty]] for its number of slots [n]. *)
Theorem isSolved_iff (b : JsArray) :
  0 < arr_length b →
  (isSolved b = true ↔
     (∀ i, 0 ≤ i ≤ arr_length b - 2 → arr_get b i = JNum (i + 1)) ∧
     arr_get b (arr_length b - 1) = JNull) ∧
  (isSolved b = true ↔ items b = solved_items (arr_length b)).
Proof.
  intros Hpos. split.
  - apply isSolved_spec.
  - by apply isSolved_solved_items.
Qed.

Lemma isSolved_iff_witness :
  let b := arr_of [JNum 1; JNum 2; JNum 3; JNull] in
  0 < arr_length b ∧
  (isSolved b = true ↔ items b = solved_items (arr_length b)).
Proof.
  split.
  - reflexivity.
  - apply (isSolved_iff (arr_of [JNum 1; JNum 2; JNum 3; JNull])). reflexivity.
Defined.

Example isSolved_size3 :
  isSolved (arr_of (JNum <$> [1; 2; 3; 4; 5; 6; 7; 8]) ) = false ∧
  isSolved (arr_of ((JNum <$> [1; 2; 3; 4; 5; 6; 7; 8]) ++ [JNull])) = true ∧
  isSolved (arr_of ((JNum <$> [1; 2; 3; 4; 5; 6; 7]) ++ [JNull; JNum 8])) = false.
Proof. by vm_compute. Qed.

(** ** Forced win *)

(** C6.  From every prior state (of a non-zero board size), [handleSolve]
    sets the board to [[1, 2, ..., size² - 1, empty]] and the status to
    [SOLVED]; the move count is the one before, and the solved-check effect
    has nothing left to do. *)
Theorem handleSolve_spec (st : Session) :
  size st ≠ 0 →
  board (handleSolve st) = arr_of (solved_items (size st * size st)) ∧
  status (handleSolve st) = SOLVED ∧
  moves (handleSolve st) = moves st ∧
  solvedEffect (handleSolve st) = handleSolve st.
Proof.
  intros Hsize. unfold handleSolve, solvedEffect. simpl.
  split; [|done]. apply solvedBoard_eq. nia.
Qed.

Lemma handleSolve_spec_witness :
  let st := mkSession PLAYING None 4
              (arr_of ((JNum <$> seqZ 2 14) ++ [JNull; JNum 1])) 7 12 in
  size st ≠ 0 ∧
  board (handleSolve st) = arr_of ((JNum <$> seqZ 1 15) ++ [JNull]) ∧
  status (handleSolve st) = SOLVED ∧
  moves (handleSolve st) = 7.
Proof.
  split; [done|].
  pose proof (handleSolve_spec
    (mkSession PLAYING None 4
       (arr_of ((JNum <$> seqZ 2 14) ++ [JNull; JNum 1])) 7 12)) as H.
  simpl in H. destruct H as (Hb & Hs & Hm & _); [done|].
  split; [exact Hb|]. split; [exact Hs|exact Hm].
Defined.

(** ** Tile clicks *)

Lemma arr_get_spread (a : JsArray) (i : Z) :
  0 ≤ i → arr_get (arr_spread a) i = arr_get a i.
Proof. intros Hi. unfold arr_get. by rewrite !decide_True by done. Qed.

Lemma handleTileClick_not_adjacent st t :
  manhattan (size st) t (arr_indexOf (board st) JNull) ≠ 1 →
  handleTileClick st t = st.
Proof.
  intros Hfar. unfold handleTileClick.
  repeat (case_decide; [done|]).
  by rewrite bool_decide_eq_false_2.
Qed.

Lemma handleTileClick_adjacent st t :
  status st = PLAYING →
  arr_indexOf (board st) JNull ≠ -1 →
  manhattan (size st) t (arr_indexOf (board st) JNull) = 1 →
  handleTileClick st t =
    mkSession PLAYING (imageSrc st) (size st)
      (arr_swap (arr_spread (board st)) t (arr_indexOf (board st) JNull))
      (moves st + 1) (time st).
Proof.
  intros Hplay Hblank Hadj. unfold handleTileClick.
  rewrite decide_False by (by intros []).
  rewrite decide_False by done.
  rewrite bool_decide_eq_true_2 by done. by rewrite Hplay.
Qed.

(** C10.  On a board that holds no empty marker, a tile click returns the
    session as it was: [indexOf] answers [-1] and the guard returns before
    the adjacency test and the swap. *)
Theorem handleTileClick_no_blank (st : Session) (tileIndex : Z) :
  JNull ∉ items (board st) → handleTileClick st tileIndex = st.
Proof.
  intros Hnone. apply arr_indexOf_None in Hnone.
  unfold handleTileClick. case_decide; [done|]. by rewrite decide_True.
Qed.

Lemma handleTileClick_no_blank_witness :
  let st := mkSession PLAYING None 3 (arr_of (JNum <$> seqZ 1 9)) 4 20 in
  (JNull ∉ items (board st)) ∧ handleTileClick st 5 = st.
Proof.
  assert (JNull ∉ JNum <$> seqZ 1 9) as Hnone.
  { intros (k & Hk & _)%list_elem_of_fmap. discriminate Hk. }
  split; [exact Hnone|].
  exact (handleTileClick_no_blank
           (mkSession PLAYING None 3 (arr_of (JNum <$> seqZ 1 9)) 4 20) 5 Hnone).
Defined.

(** What a click on an in-range slot adjacent to the empty one leaves in
    each slot. *)
Lemma click_swap_slots (b : JsArray) (t blank : Z) :
  0 ≤ t < arr_length b → 0 ≤ blank < arr_length b →
  arr_get b blank = JNull →
  let b' := arr_swap (arr_spread b) t blank in
  arr_length b' = arr_length b ∧
  items b' ≡ₚ items b ∧
  props b' = ∅ ∧
  arr_get b' blank = arr_get b t ∧
  (t ≠ blank → arr_get b' t = JNull) ∧
  (∀ k, 0 ≤ k → k ≠ t → k ≠ blank → arr_get b' k = arr_get b k).
Proof.
  intros Ht Hblank Hnull. cbv zeta.
  assert (arr_length (arr_spread b) = arr_length b) as Hlen by done.
  split; [by rewrite arr_length_swap by lia|].
  split; [by rewrite arr_swap_perm by lia|].
  split; [by rewrite arr_swap_props by lia|].
  split; [|split].
  - rewrite arr_get_swap by lia. rewrite decide_True by done.
    apply arr_get_spread. lia.
  - intros Hne. rewrite arr_get_swap by lia.
    rewrite decide_False, decide_True by done.
    by rewrite arr_get_spread by lia.
  - intros k Hk Hkt Hkb. rewrite arr_get_swap by lia.
    rewrite !decide_False by done. by apply arr_get_spread.
Qed.



(** The scenario of a legal click on a 3×3 board: the tile of slot 7
    slides into the empty slot 8, one move is counted and the game goes
    on. *)
Example click_scenario :
  let st := mkSession PLAYING None 3
              (arr_of ((JNum <$> [1; 2; 3; 4; 5; 6; 7; 9]) ++ [JNull])) 0 0 in
  play st (Click 7) =
    mkSession PLAYING None 3
      (arr_of ((JNum <$> [1; 2; 3; 4; 5; 6; 7]) ++ [JNull; JNum 9])) 1 0.
Proof. by vm_compute. Qed.

(** ** Undoing a move *)

Lemma occurrences_zero (v : JsVal) (l : list JsVal) :
  occurrences v l = 0%nat → v ∉ l.
Proof.
  unfold occurrences. induction l as [|x l IH]; intros Hocc.
  - apply not_elem_of_nil.
  - rewrite filter_cons in Hocc. destruct (decide (x = v)) as [->|Hne].
    + discriminate Hocc.
    + apply not_elem_of_cons. split; [done|]. by apply IH.
Qed.

Lemma occurrences_one_unique (v : JsVal) (l : list JsVal) (i j : nat) :
  occurrences v l = 1%nat → l !! i = Some v → l !! j = Some v → i = j.
Proof.
  unfold occurrences. revert i j. induction l as [|x l IH]; intros i j Hocc Hi Hj.
  - done.
  - rewrite filter_cons in Hocc. destruct (decide (x = v)) as [->|Hne].
    + simpl in Hocc. injection Hocc as Hocc. apply occurrences_zero in Hocc.
      destruct i as [|i], j as [|j]; simpl in *; try done;
        destruct Hocc; by eapply list_elem_of_lookup_2.
    + destruct i as [|i], j as [|j]; simplify_eq/=. f_equal. by apply IH.
Qed.

(** On a board with one empty marker, the slot reading [null] is the one
    [indexOf] finds. *)
Lemma blank_unique (b : JsArray) (i j : Z) :
  occurrences JNull (items b) = 1%nat →
  0 ≤ i < arr_length b → 0 ≤ j < arr_length b →
  arr_get b i = JNull → arr_get b j = JNull → i = j.
Proof.
  intros Hocc Hi Hj Hgi Hgj.
  assert (Z.to_nat i = Z.to_nat j); [|lia].
  apply (occurrences_one_unique JNull (items b)); [done|..].
  - rewrite arr_get_lookup by done. by rewrite Hgi.
  - rewrite arr_get_lookup by done. by rewrite Hgj.
Qed.

Lemma one_blank_indexOf (b : JsArray) :
  occurrences JNull (items b) = 1%nat → arr_indexOf b JNull ≠ -1.
Proof.
  intros Hocc Hnone. apply arr_indexOf_None, occurrences_absent in Hnone.
  rewrite Hnone in Hocc. discriminate Hocc.
Qed.

(** After a legal click the empty marker sits in the clicked slot. *)
Lemma indexOf_after_click (b : JsArray) (t : Z) :
  occurrences JNull (items b) = 1%nat →
  0 ≤ t < arr_length b →
  t ≠ arr_indexOf b JNull →
  arr_indexOf (arr_swap (arr_spread b) t (arr_indexOf b JNull)) JNull = t.
Proof.
  intros Hocc Ht Hne.
  destruct (arr_indexOf_Some b JNull _ eq_refl (one_blank_indexOf b Hocc))
    as (Hrange & Hnull & _).
  set (blank := arr_indexOf b JNull) in *.
  destruct (click_swap_slots b t blank Ht Hrange Hnull)
    as (Hlen & _ & _ & Hgb & Hgt & Hrest).
  apply arr_indexOf_unique.
  - lia.
  - by apply Hgt.
  - intros k Hk Hgk. destruct (decide (k = t)) as [|Hkt]; [done|].
    destruct (decide (k = blank)) as [->|Hkb].
    + rewrite Hgb in Hgk. destruct Hne.
      apply (blank_unique b); (done || lia).
    + rewrite Hrest in Hgk by (done || lia). destruct Hkb.
      apply (blank_unique b); (done || lia).
Qed.

(** C8, as the code has it.  On a board with one empty marker, a legal
    move at [tileIndex] is undone by the move at the slot the tile went to,
    the former empty slot: the elements are those of the original board
    (and the board is the original one when that carried elements only).
    A second click at [tileIndex] itself changes nothing, the slot being
    the empty one by then. *)
Theorem handleTileClick_undo (st : Session) (tileIndex : Z) :
  status st = PLAYING →
  occurrences JNull (items (board st)) = 1%nat →
  0 ≤ tileIndex < arr_length (board st) →
  manhattan (size st) tileIndex (arr_indexOf (board st) JNull) = 1 →
  let blankIndex := arr_indexOf (board st) JNull in
  let st1 := handleTileClick st tileIndex in
  handleTileClick st1 tileIndex = st1 ∧
  items (board (handleTileClick st1 blankIndex)) = items (board st) ∧
  (props (board st) = ∅ → board (handleTileClick st1 blankIndex) = board st).
Proof.
  intros Hplay Hocc Ht Hadj. cbv zeta.
  pose proof (one_blank_indexOf _ Hocc) as Hblank.
  destruct (arr_indexOf_Some (board st) JNull _ eq_refl Hblank)
    as (Hrange & Hnull & _).
  assert (tileIndex ≠ arr_indexOf (board st) JNull) as Hne.
  { intros Heq. rewrite <-Heq, manhattan_self in Hadj. lia. }
  pose proof (indexOf_after_click _ _ Hocc Ht Hne) as Hidx.
  rewrite (handleTileClick_adjacent st tileIndex) by done.
  set (blank := arr_indexOf (board st) JNull) in *.
  set (b1 := arr_swap (arr_spread (board st)) tileIndex blank) in *.
  destruct (click_swap_slots (board st) tileIndex blank Ht Hrange Hnull)
    as (Hlen1 & _ & _ & Hgb1 & Hgt1 & Hrest1).
  fold b1 in Hlen1, Hgb1, Hgt1, Hrest1. specialize (Hgt1 Hne).
  split.
  { apply handleTileClick_not_adjacent. simpl.
    rewrite Hidx, manhattan_self. lia. }
  rewrite handleTileClick_adjacent; simpl; rewrite ?Hidx;
    [|done|lia|by rewrite manhattan_sym].
  destruct (click_swap_slots b1 blank tileIndex) as
    (Hlen2 & _ & Hprops2 & Hgt2 & Hgb2 & Hrest2); [lia|lia|done|].
  assert (items (arr_swap (arr_spread b1) blank tileIndex) = items (board st))
    as Hitems.
  { apply items_ext; [lia|]. intros k Hk.
    destruct (decide (k = tileIndex)) as [->|Hkt]; [by rewrite Hgt2|].
    destruct (decide (k = blank)) as [->|Hkb].
    - rewrite Hgb2 by done. by rewrite Hnull.
    - rewrite Hrest2 by (done || lia). apply Hrest1; (done || lia). }
  split; [done|]. intros Hprops.
  apply JsArray_eq; [done|]. by rewrite Hprops.
Qed.

Lemma handleTileClick_undo_witness :
  let st := mkSession PLAYING None 3 (arr_of (JNull :: (JNum <$> seqZ 1 8))) 0 0 in
  status st = PLAYING ∧
  occurrences JNull (items (board st)) = 1%nat ∧
  manhattan (size st) 3 (arr_indexOf (board st) JNull) = 1 ∧
  board (handleTileClick (handleTileClick st 3) 0) = board st.
Proof.
  split; [reflexivity|]. split; [reflexivity|]. split; [reflexivity|].
  apply (handleTileClick_undo
    (mkSession PLAYING None 3 (arr_of (JNull :: (JNum <$> seqZ 1 8))) 0 0) 3);
    by vm_compute.
Defined.

(** C8 as the specification words it fails: on a 3×3 board with the empty
    slot in the corner, the legal move at slot 1 followed by the move at
    slot 1 again leaves the tile where the first move put it. *)
Lemma click_same_slot_twice :
  let st := mkSession PLAYING None 3 (arr_of (JNull :: (JNum <$> seqZ 1 8))) 0 0 in
  manhattan (size st) 1 (arr_indexOf (board st) JNull) = 1 ∧
  board (handleTileClick (handleTileClick st 1) 1) =
    arr_of ([JNum 1; JNull] ++ (JNum <$> seqZ 2 7)) ∧
  board (handleTileClick (handleTileClick st 1) 1) ≠ board st.
Proof. by vm_compute. Qed.

(** ** [shuffleBoard] *)

Lemma levels_ge_2 (s : Z) : s ∈ levels → 2 ≤ s.
Proof.
  unfold levels. rewrite !elem_of_cons, elem_of_nil. lia.
Qed.

Lemma valid_rng_zero : valid_rng rng_zero.
Proof. intros k. split; [done|]. split; [done|]. by vm_compute. Qed.

Lemma valid_rng_alternating : valid_rng rng_alternating.
Proof.
  intros k. unfold rng_alternating.
  destruct (Nat.even k); (split; [done|]; split; [done|]; by vm_compute).
Qed.


(** The product on familiar doubles: [0.1 * 3] is [0.30000000000000004],
    [0.5 * 3] is exact, [0.6666666666666666] is the double nearest to
    [2/3] and its product with [3] is [2]. *)
Example double_mul_examples :
  (double_mul (3602879701896397 # 36028797018963968) 3 ==
     5404319552844596 # 18014398509481984)%Q ∧
  (double_mul (1 # 2) 3 == 3 # 2)%Q ∧
  (round_double (2 # 3) == draw_two_thirds)%Q ∧
  (double_mul draw_two_thirds 3 == 2)%Q ∧
  pickMove draw_two_thirds [DOWN; UP; RIGHT] = Some RIGHT ∧
  pickMove (1 # 2) [DOWN; UP; RIGHT] = Some UP.
Proof. repeat split; by vm_compute. Qed.




(** C1, as the code has it.  For a size of the selector and draws of the
    unit interval: any board [shuffleBoard] returns is an arrangement of
    the tiles [1 .. size² - 1] and one empty marker, is not solved, and is
    reached from the solved layout by legal slides; and [shuffleBoard]
    does return one as soon as the walk of some attempt ends off the solved
    layout, [j] recursive calls being enough when attempt [j] does. *)
Theorem shuffleBoard_spec (s : Z) (rnd : Rng) (c : nat) :
  s ∈ levels → valid_rng rnd →
  (∀ fuel b, shuffleBoard fuel s rnd c = Some b →
     items b ≡ₚ solved_items (s * s) ∧
     board_inv (s * s) b ∧
     isSolved b = false ∧
     slide_reachable s b) ∧
  (∀ j : nat,
     isSolved (shuffle_walk s rnd (c + j * walk_length s)%nat) = false →
     ∃ b, ∀ fuel, (j ≤ fuel)%nat → shuffleBoard fuel s rnd c = Some b).
Proof.
  intros Hs%levels_ge_2 Hrnd. split.
  - intros fuel b (Hns & k & ->)%shuffleBoard_Some.
    destruct (shuffle_walk_inv s Hs rnd (c + k * walk_length s)%nat Hrnd)
      as (Hp & _ & Hreach).
    split; [done|]. split; [by apply board_inv_of_perm|done].
  - intros j. apply shuffleBoard_returns.
Qed.

Lemma shuffleBoard_spec_witness :
  3 ∈ levels ∧ valid_rng rng_zero ∧
  ∃ b, shuffleBoard 0 3 rng_zero 0 = Some b ∧
       items b = JNum 1 :: JNum 2 :: JNull ::
                 (JNum <$> [4; 5; 3; 7; 8; 6]) ∧
       items b ≡ₚ solved_items 9 ∧
       isSolved b = false ∧
       slide_reachable 3 b.
Proof.
  assert (3 ∈ levels) as H3 by (by vm_compute; apply list_elem_of_here).
  split; [exact H3|]. split; [exact valid_rng_zero|].
  destruct (shuffleBoard_spec 3 rng_zero 0 H3 valid_rng_zero) as [Hgood Hret].
  destruct (Hret 0%nat) as [b Hb]; [by vm_compute|].
  exists b. pose proof (Hb 0%nat ltac:(lia)) as Hb0.
  destruct (Hgood 0%nat b Hb0) as (Hp & _ & Hns & Hreach).
  split; [exact Hb0|].
  split; [|split; [exact Hp|split; [exact Hns|exact Hreach]]].
  assert (shuffleBoard 0 3 rng_zero 0 =
          Some (arr_of (JNum 1 :: JNum 2 :: JNull ::
                        (JNum <$> [4; 5; 3; 7; 8; 6])))) as Hval
    by (by vm_compute).
  rewrite Hval in Hb0. by injection Hb0 as <-.
Defined.

(** C1 as the specification words it fails: some sequences of draws never
    let [shuffleBoard] return.  With the draws [0, 1/2, 0, 1/2, ...] the
    empty slot of a 3×3 board goes up on even iterations and comes back on
    odd ones, every walk of 90 iterations ends on the solved layout, and
    each attempt calls the next. *)
Lemma shuffleBoard_alternating_diverges :
  3 ∈ levels ∧ valid_rng rng_alternating ∧
  ∀ fuel, shuffleBoard fuel 3 rng_alternating 0 = None.
Proof.
  split; [by vm_compute; apply list_elem_of_here|].
  split; [exact valid_rng_alternating|].
  assert (∀ c, Nat.even c = true →
               isSolved (shuffle_walk 3 rng_alternating c) = true) as Hwalk.
  { intros c Hc. unfold shuffle_walk.
    rewrite (shuffle_loop_ext 3 rng_alternating rng_alternating _ c 0).
    - by vm_compute.
    - intros k _. unfold rng_alternating. simpl.
      by rewrite Nat.even_add, Hc; destruct (Nat.even k). }
  assert (∀ fuel c, Nat.even c = true →
                    shuffleBoard fuel 3 rng_alternating c = None) as Hnone.
  { induction fuel as [|fuel IH]; intros c Hc;
      rewrite shuffleBoard_unfold, Hwalk by done.
    - done.
    - apply IH. rewrite Nat.even_add, Hc. by vm_compute. }
  intros fuel. by apply Hnone.
Qed.

(** ** The board invariant through the operations *)

Lemma board_inv_perm (n : Z) (b b' : JsArray) :
  items b' ≡ₚ items b → board_inv n b → board_inv n b'.
Proof.
  intros Hp (Hnull & Htiles & Hall). unfold board_inv. split; [|split].
  - by rewrite (occurrences_perm _ _ _ Hp).
  - intros v Hv. rewrite (occurrences_perm _ _ _ Hp). by apply Htiles.
  - intros x Hx. apply Hall. by rewrite <-Hp.
Qed.

(** The two outcomes of a click. *)
Lemma handleTileClick_cases (st : Session) (t : Z) :
  handleTileClick st t = st ∨
  (status st = PLAYING ∧ arr_indexOf (board st) JNull ≠ -1 ∧
   manhattan (size st) t (arr_indexOf (board st) JNull) = 1 ∧
   handleTileClick st t =
     mkSession PLAYING (imageSrc st) (size st)
       (arr_swap (arr_spread (board st)) t (arr_indexOf (board st) JNull))
       (moves st + 1) (time st)).
Proof.
  destruct (decide (status st = PLAYING)) as [Hplay|Hplay].
  - destruct (decide (arr_indexOf (board st) JNull = -1)) as [Hnone|Hblank].
    + left. unfold handleTileClick. case_decide; [done|]. by rewrite decide_True.
    + destruct (decide (manhattan (size st) t (arr_indexOf (board st) JNull) = 1))
        as [Hadj|Hfar].
      * right. by rewrite handleTileClick_adjacent.
      * left. by apply handleTileClick_not_adjacent.
  - left. unfold handleTileClick. by rewrite decide_True.
Qed.

(** A click on a slot of the board rearranges its elements at most. *)
Lemma handleTileClick_perm (st : Session) (t : Z) :
  0 ≤ t < arr_length (board st) →
  items (board (handleTileClick st t)) ≡ₚ items (board st).
Proof.
  intros Ht.
  destruct (handleTileClick_cases st t) as [->|(_ & Hblank & _ & ->)]; [done|].
  destruct (arr_indexOf_Some (board st) JNull _ eq_refl Hblank)
    as (Hrange & Hnull & _).
  by destruct (click_swap_slots (board st) t _ Ht Hrange Hnull) as (_ & Hp & _).
Qed.

(** A click that exchanges the empty marker with an index outside the
    board leaves [undefined] in the slot the marker was in. *)
Lemma handleTileClick_outside (st : Session) (t : Z) :
  status st = PLAYING → arr_indexOf (board st) JNull ≠ -1 →
  manhattan (size st) t (arr_indexOf (board st) JNull) = 1 →
  ¬ 0 ≤ t < arr_length (board st) →
  JUndefined ∈ items (board (handleTileClick st t)).
Proof.
  intros Hplay Hblank Hadj Hout.
  rewrite handleTileClick_adjacent by done. cbn [board].
  destruct (arr_indexOf_Some (board st) JNull _ eq_refl Hblank) as (Hk & _).
  set (k := arr_indexOf (board st) JNull) in *.
  unfold arr_length in Hk, Hout.
  unfold arr_swap.
  assert (arr_get (arr_spread (board st)) t = JUndefined) as ->.
  { unfold arr_get, arr_spread, arr_of. cbn [items props]. case_decide.
    - by rewrite lookup_ge_None_2 by lia.
    - by rewrite lookup_empty. }
  set (v := arr_get (arr_spread (board st)) k).
  apply (list_elem_of_lookup_2 _ (Z.to_nat k)).
  unfold arr_set at 2. unfold arr_spread, arr_of, arr_length. cbn [items props].
  destruct (decide (t < 0)) as [Hneg|Hpos].
  - unfold arr_set, arr_length. cbn [items props].
    rewrite decide_False by lia. rewrite decide_True by lia. cbn [items].
    apply list_lookup_insert_eq. lia.
  - rewrite decide_False by lia.
    unfold arr_set, arr_length. cbn [items props].
    rewrite decide_False by lia.
    rewrite decide_True by (rewrite length_app; lia). cbn [items].
    apply list_lookup_insert_eq. rewrite length_app. lia.
Qed.

(** C4.  The operations that produce or change a board and the board
    invariant of the side in use (one empty marker, each tile of
    [1 .. size² - 1] once, and nothing else): a board returned by
    [shuffleBoard] and the board set by [handleSolve] satisfy it; the board
    after [handleTileClick] on a board that satisfies it does so exactly
    when the click exchanges nothing outside the board, that is when the
    index is a slot of the board, or the game is not in progress, or the
    index is not at computed distance 1 of the empty slot. *)
Theorem board_inv_preserved :
  (∀ fuel s rnd c b,
     s ∈ levels → valid_rng rnd → shuffleBoard fuel s rnd c = Some b →
     board_inv (s * s) b) ∧
  (∀ st tileIndex,
     board_inv (size st * size st) (board st) →
     board_inv (size st * size st) (board (handleTileClick st tileIndex)) ↔
     (0 ≤ tileIndex < arr_length (board st) ∨
      status st ≠ PLAYING ∨
      manhattan (size st) tileIndex (arr_indexOf (board st) JNull) ≠ 1)) ∧
  (∀ st, size st ≠ 0 →
     board_inv (size st * size st) (board (handleSolve st))).
Proof.
  split; [|split].
  - intros fuel s rnd c b Hs%levels_ge_2 Hrnd (_ & k & ->)%shuffleBoard_Some.
    apply board_inv_of_perm.
    by destruct (shuffle_walk_inv s Hs rnd (c + k * walk_length s)%nat Hrnd)
      as (Hp & _).
  - intros st t Hinv. split.
    + intros Hafter.
      destruct (decide (0 ≤ t < arr_length (board st))) as [|Hout]; [by left|].
      destruct (decide (status st = PLAYING)) as [Hplay|]; [|by right; left].
      destruct (decide (manhattan (size st) t (arr_indexOf (board st) JNull) = 1))
        as [Hadj|]; [|by right; right].
      pose proof (one_blank_indexOf (board st) (proj1 Hinv)) as Hblank.
      pose proof (handleTileClick_outside st t Hplay Hblank Hadj Hout) as Hundef.
      destruct Hafter as (_ & _ & Hvalues).
      by destruct (Hvalues _ Hundef) as [?|(v & ? & _)].
    + intros [Ht|[Hstatus|Hfar]].
      * eapply board_inv_perm; [|exact Hinv]. by apply handleTileClick_perm.
      * by destruct (handleTileClick_cases st t) as [->|(Hplay & _)].
      * by rewrite handleTileClick_not_adjacent.
  - intros st Hsize. apply board_inv_of_perm. simpl.
    rewrite solvedBoard_eq by nia. done.
Qed.

Lemma board_inv_preserved_witness :
  let st := mkSession PLAYING None 3
              (arr_of ((JNum <$> [1; 2; 3; 4; 5; 6; 7]) ++ [JNull; JNum 8])) 2 5 in
  board (handleTileClick st 4) =
    arr_of ((JNum <$> [1; 2; 3; 4]) ++ [JNull; JNum 6; JNum 7; JNum 5; JNum 8]) ∧
  board_inv 9 (board (handleTileClick st 4)) ∧
  board_inv 9 (board (handleSolve st)).
Proof.
  destruct board_inv_preserved as (_ & Hclick & Hsolve).
  split; [by vm_compute|]. split.
  - apply (Hclick
      (mkSession PLAYING None 3
         (arr_of ((JNum <$> [1; 2; 3; 4; 5; 6; 7]) ++ [JNull; JNum 8])) 2 5) 4);
      [|left; by vm_compute].
    apply board_inv_of_perm. vm_compute.
    do 7 apply perm_skip. apply perm_swap.
  - apply (Hsolve
      (mkSession PLAYING None 3
         (arr_of ((JNum <$> [1; 2; 3; 4; 5; 6; 7]) ++ [JNull; JNum 8])) 2 5)).
    done.
Defined.

(** ** The iterations of the shuffle walk *)




(** The first two iterations on a 3×3 board with the draws [0, 1/2]: the
    empty marker goes from slot 8 to slot 5 (DOWN, first of two enumerated
    directions) and back (UP, second of three). *)
Example shuffle_two_iterations :
  possibleMoves 3 8 = [DOWN; RIGHT] ∧
  (shuffle_loop 3 rng_alternating 1 0 (walk_start 3)).2 = 5 ∧
  possibleMoves 3 5 = [DOWN; UP; RIGHT] ∧
  shuffle_loop 3 rng_alternating 2 0 (walk_start 3) = walk_start 3.
Proof. by vm_compute. Qed.

(** ** Sessions the interface can reach *)

Lemma handleTileClick_frame (st : Session) (t : Z) :
  status (handleTileClick st t) = status st ∧
  size (handleTileClick st t) = size st ∧
  time (handleTileClick st t) = time st ∧
  imageSrc (handleTileClick st t) = imageSrc st.
Proof.
  destruct (handleTileClick_cases st t) as [->|(Hplay & _ & _ & ->)]; [done|].
  simpl. by rewrite Hplay.
Qed.

Lemma solvedEffect_frame (st : Session) :
  size (solvedEffect st) = size st ∧
  time (solvedEffect st) = time st ∧
  board (solvedEffect st) = board st ∧
  moves (solvedEffect st) = moves st ∧
  (status (solvedEffect st) = status st ∨ status (solvedEffect st) = SOLVED).
Proof.
  unfold solvedEffect. case_decide; [|by repeat split; auto].
  destruct (isSolved (board st)); simpl; repeat split; auto.
Qed.

Lemma solvedEffect_inv (st : Session) :
  session_inv st → session_inv (solvedEffect st).
Proof.
  destruct (solvedEffect_frame st) as (Hsize & Htime & Hboard & _).
  unfold session_inv, timeLimit. by rewrite Hsize, Htime, Hboard.
Qed.

Lemma shuffleBoard_perm fuel s rnd c b :
  s ∈ levels → valid_rng rnd → shuffleBoard fuel s rnd c = Some b →
  items b ≡ₚ solved_items (s * s).
Proof.
  intros Hs%levels_ge_2 Hrnd (_ & k & ->)%shuffleBoard_Some.
  by destruct (shuffle_walk_inv s Hs rnd (c + k * walk_length s)%nat Hrnd)
    as (Hp & _).
Qed.

Lemma timerTick_time (st : Session) :
  0 ≤ time st ≤ timeLimit st →
  size (timerTick st) = size st ∧ board (timerTick st) = board st ∧
  0 ≤ time (timerTick st) ≤ timeLimit st.
Proof.
  intros Ht. unfold timerTick.
  case_decide; [|done]. case_decide; simpl; (split; [done|split; [done|lia]]).
Qed.

Lemma step_inv (st st' : Session) :
  session_inv st → step st st' → session_inv st'.
Proof.
  intros (Hsize & Htime & Hboard) Hstep.
  assert (∀ s, s ∈ levels → 0 ≤ s * s * 10) as Hlimit.
  { intros s Hs%levels_ge_2. nia. }
  destruct Hstep as [img level fuel rnd c st1 _ Hlevel Hrnd Hstart| _
                    |fuel rnd c st1 _ Hrnd Hreset| _ |value _ Hvalue| ];
    apply solvedEffect_inv.
  - unfold handleGameStart in Hstart.
    destruct (shuffleBoard fuel level rnd c) as [b|] eqn:Hb; simplify_eq/=.
    split; [done|]. unfold timeLimit. simpl.
    split; [by split; [|apply Hlimit]|]. right. by eapply shuffleBoard_perm.
  - done.
  - unfold handleReset in Hreset.
    destruct (shuffleBoard fuel (size st) rnd c) as [b|] eqn:Hb; simplify_eq/=.
    split; [done|]. unfold timeLimit. simpl.
    split; [by split; [|apply Hlimit]|]. right. by eapply shuffleBoard_perm.
  - split; [done|]. split; [done|]. right. simpl.
    apply levels_ge_2 in Hsize. by rewrite solvedBoard_eq by nia.
  - unfold tileOnClick.
    set (pos := arr_indexOf (board st) (JNum value)).
    destruct (handleTileClick_frame st pos) as (_ & Hs & Ht & _).
    unfold session_inv, timeLimit. rewrite Hs, Ht.
    split; [done|]. split; [done|].
    destruct Hboard as [Hnil|Hp].
    { rewrite Hnil in Hvalue. by apply elem_of_nil in Hvalue. }
    right. rewrite handleTileClick_perm; [done|].
    apply (arr_indexOf_Some _ (JNum value)); [done|].
    by intros Hnone%arr_indexOf_None.
  - destruct (timerTick_time st Htime) as (Hs & Hb & Ht).
    unfold session_inv, timeLimit. by rewrite Hs, Hb.
Qed.

Lemma session_inv_initial : session_inv initial.
Proof.
  split; [by vm_compute; apply list_elem_of_here|].
  split; [by vm_compute|]. by left.
Qed.

Lemma reachable_inv (st : Session) : reachable st → session_inv st.
Proof.
  intros Hreach.
  apply (rtc_ind_r (R:=step) session_inv initial);
    [apply session_inv_initial| |done].
  intros y z _ Hstep Hy. by eapply step_inv.
Qed.

(** ** The timer *)

Lemma play_all_snoc (st : Session) (evs : list PlayEvent) (e : PlayEvent) :
  play_all st (evs ++ [e]) = play (play_all st evs) e.
Proof. unfold play_all. by rewrite foldl_app. Qed.

Lemma ticks_snoc (evs : list PlayEvent) (e : PlayEvent) :
  ticks (evs ++ [e]) = ticks evs + (if decide (e = Tick) then 1 else 0).
Proof.
  unfold ticks. rewrite filter_app, length_app, filter_cons, filter_nil.
  case_decide; simpl; lia.
Qed.

Lemma timerTick_running (st : Session) :
  status st = PLAYING → time st + 1 < timeLimit st →
  timerTick st =
    mkSession PLAYING (imageSrc st) (size st) (board st) (moves st) (time st + 1).
Proof.
  intros Hplay Hlt. unfold timerTick.
  rewrite decide_True by done. rewrite decide_False by lia. by rewrite Hplay.
Qed.

Lemma timerTick_expires (st : Session) :
  status st = PLAYING → time st + 1 >= timeLimit st →
  timerTick st =
    mkSession TIME_UP (imageSrc st) (size st) (board st) (moves st) (timeLimit st).
Proof.
  intros Hplay Hge. unfold timerTick. by rewrite !decide_True by done.
Qed.

Lemma timerTick_idle (st : Session) : status st ≠ PLAYING → timerTick st = st.
Proof. intros Hidle. unfold timerTick. by rewrite decide_False. Qed.

Lemma solvedEffect_idle (st : Session) :
  status st ≠ PLAYING → solvedEffect st = st.
Proof. intros Hidle. unfold solvedEffect. by rewrite decide_False. Qed.

(** A game on which clicks and ticks arrive, none of them ending it by a
    solved board, counts its ticks up to the limit. *)
Lemma play_all_ticks (st : Session) (evs : list PlayEvent) :
  status st = PLAYING → time st = 0 → 0 < timeLimit st →
  (∀ k, (k ≤ length evs)%nat → status (play_all st (take k evs)) ≠ SOLVED) →
  ticks evs ≤ timeLimit st →
  size (play_all st evs) = size st ∧
  (ticks evs < timeLimit st →
     status (play_all st evs) = PLAYING ∧ time (play_all st evs) = ticks evs) ∧
  (ticks evs = timeLimit st →
     status (play_all st evs) = TIME_UP ∧
     time (play_all st evs) = timeLimit st).
Proof.
  intros Hplay Htime Hlimit.
  induction evs as [|e evs IH] using rev_ind; intros Hunsolved Hticks.
  { simpl. split; [done|]. split; [done|]. unfold ticks. simpl. lia. }
  rewrite ticks_snoc in Hticks |- *. rewrite play_all_snoc.
  pose proof (Hunsolved (length (evs ++ [e])) ltac:(done)) as Hlast.
  rewrite firstn_all, play_all_snoc in Hlast.
  destruct IH as (Hsize & Hrun & Hup).
  { intros k Hk. specialize (Hunsolved k).
    rewrite take_app_le in Hunsolved by done. apply Hunsolved.
    rewrite length_app. lia. }
  { case_decide; lia. }
  set (st' := play_all st evs) in *.
  assert (timeLimit st' = timeLimit st) as Hlim'
    by (unfold timeLimit; by rewrite Hsize).
  destruct e as [t|].
  - rewrite decide_False in Hticks |- * by done. rewrite Z.add_0_r in *.
    simpl in *.
    destruct (handleTileClick_frame st' t) as (Hcs & Hcz & Hct & _).
    destruct (solvedEffect_frame (handleTileClick st' t))
      as (Hez & Het & _ & _ & Hes).
    split; [congruence|]. split.
    + intros Hlt. destruct (Hrun Hlt) as [Hs Ht].
      split; [|congruence]. destruct Hes as [Hes|Hes]; congruence.
    + intros Heq. destruct (Hup Heq) as [Hs Ht].
      rewrite solvedEffect_idle by (rewrite Hcs, Hs; done).
      split; congruence.
  - rewrite decide_True in Hticks |- * by done. simpl in *.
    destruct Hrun as [Hs Ht]; [lia|].
    destruct (decide (time st' + 1 >= timeLimit st')) as [Hge|Hlt].
    + rewrite timerTick_expires by done.
      rewrite solvedEffect_idle by done. simpl.
      split; [done|]. split; [lia|]. intros _. by rewrite Hlim'.
    + rewrite timerTick_running in Hlast |- * by (done || lia).
      destruct (solvedEffect_frame
        (mkSession PLAYING (imageSrc st') (size st') (board st') (moves st')
                   (time st' + 1))) as (Hez & Het & _ & _ & Hes).
      simpl in *. split; [congruence|]. split; [|lia].
      intros _. split; [|lia]. destruct Hes as [Hes|Hes]; congruence.
Qed.

(** C5.  The tick does nothing outside [PLAYING]; while [PLAYING] it adds
    1 to the elapsed time, and when that reaches [timeLimit = size² × 10]
    it stores [timeLimit] itself and sets [TIME_UP].  On a game started
    at [0] that no event ends by a solved board, the elapsed time is the
    number of ticks as long as that is below the limit, and at exactly
    [timeLimit] ticks the status is [TIME_UP] with the elapsed time equal
    to [timeLimit].  No session the interface can reach has an elapsed time
    above its limit. *)
Theorem timer_spec :
  (∀ st, timeLimit st = size st * size st * 10) ∧
  (∀ st, status st ≠ PLAYING → timerTick st = st) ∧
  (∀ st, status st = PLAYING → time st + 1 < timeLimit st →
     timerTick st =
       mkSession PLAYING (imageSrc st) (size st) (board st) (moves st)
                 (time st + 1)) ∧
  (∀ st, status st = PLAYING → time st + 1 >= timeLimit st →
     timerTick st =
       mkSession TIME_UP (imageSrc st) (size st) (board st) (moves st)
                 (timeLimit st)) ∧
  (∀ st evs,
     status st = PLAYING → time st = 0 → size st ≠ 0 →
     (∀ k, (k ≤ length evs)%nat →
           status (play_all st (take k evs)) ≠ SOLVED) →
     (ticks evs < timeLimit st →
        status (play_all st evs) = PLAYING ∧
        time (play_all st evs) = ticks evs) ∧
     (ticks evs = timeLimit st →
        status (play_all st evs) = TIME_UP ∧
        time (play_all st evs) = timeLimit st)) ∧
  (∀ st, reachable st → 0 ≤ time st ≤ timeLimit st).
Proof.
  split; [done|].
  split; [exact timerTick_idle|].
  split; [exact timerTick_running|].
  split; [exact timerTick_expires|].
  split.
  - intros st evs Hplay Htime Hsize Hunsolved.
    assert (0 < timeLimit st) as Hlimit by (unfold timeLimit; nia).
    split.
    + intros Hlt.
      by destruct (play_all_ticks st evs Hplay Htime Hlimit Hunsolved)
        as (_ & Hrun & _); [lia|apply Hrun].
    + intros Heq.
      by destruct (play_all_ticks st evs Hplay Htime Hlimit Hunsolved)
        as (_ & _ & Hup); [lia|apply Hup].
  - by intros st (_ & Htime & _)%reachable_inv.
Qed.

Lemma timer_spec_witness :
  let st := mkSession PLAYING (Some "img") 3
              (arr_of (JNum 1 :: JNum 2 :: JNull ::
                       (JNum <$> [4; 5; 3; 7; 8; 6]))) 0 0 in
  let evs := Click 5 :: replicate 90 Tick in
  ticks evs = timeLimit st ∧
  status (play_all st evs) = TIME_UP ∧
  time (play_all st evs) = 90.
Proof.
  destruct timer_spec as (_ & _ & _ & _ & Hrun & _).
  split; [by vm_compute|].
  apply (Hrun
    (mkSession PLAYING (Some "img") 3
       (arr_of (JNum 1 :: JNum 2 :: JNull :: (JNum <$> [4; 5; 3; 7; 8; 6])))
       0 0)
    (Click 5 :: replicate 90 Tick)); [done|done|done| |by vm_compute].
  intros k Hk.
  do 92 (destruct k as [|k]; [by vm_compute|]).
  vm_compute in Hk. lia.
Defined.

(** ** Clicks outside the board *)

(** The only indices outside a board of side [s] whose computed
    coordinates lie at Manhattan distance 1 of an in-range slot. *)
Lemma out_of_range_adjacent (s t blank : Z) :
  2 ≤ s → 0 ≤ blank < s * s →
  t < 0 ∨ s * s ≤ t →
  manhattan s t blank = 1 →
  t = blank + s ∨ (t = - s ∧ blank = 0).
Proof.
  intros Hs Hblank Hout Hadj. unfold manhattan in Hadj.
  destruct (slot_decompose s ltac:(lia) blank ltac:(lia)) as [Hb Hbx].
  pose proof (slot_y_range s ltac:(lia) blank Hblank) as Hby.
  destruct Hout as [Hneg|Hpast].
  - right. destruct (slot_negative s ltac:(lia) t Hneg) as [Htx Hty].
    assert (slot_y s t = -1 ∧ slot_y s blank = 0 ∧
            slot_x s t = 0 ∧ slot_x s blank = 0) as (Hy & Hy0 & Hx & Hx0) by lia.
    split; [|lia].
    unfold slot_x, slot_y in Hx, Hy.
    apply Z.rem_divide in Hx; [|lia]. apply Z.mod_divide in Hx; [|lia].
    pose proof (Z.div_mod t s ltac:(lia)). lia.
  - left. destruct (slot_decompose s ltac:(lia) t ltac:(nia)) as [Ht Htx].
    assert (s ≤ slot_y s t) as Hty.
    { unfold slot_y. apply Z.div_le_lower_bound; lia. }
    assert (slot_y s t = slot_y s blank + 1 ∧ slot_x s t = slot_x s blank)
      as [Hy Hx] by lia.
    rewrite Ht, Hb at 1. rewrite Hy, Hx. lia.
Qed.

(** C9, as the code has it.  In a session the interface can reach, a
    click at an index outside [0 .. size² - 1] leaves the session as it
    was, unless the index is the empty slot's index plus [size], or is
    [-size] while the empty marker is in slot 0. *)
Theorem handleTileClick_out_of_range (st : Session) (tileIndex : Z) :
  reachable st →
  tileIndex < 0 ∨ size st * size st ≤ tileIndex →
  tileIndex ≠ arr_indexOf (board st) JNull + size st →
  ¬ (tileIndex = - size st ∧ arr_indexOf (board st) JNull = 0) →
  handleTileClick st tileIndex = st.
Proof.
  intros (Hsize & _ & Hboard)%reachable_inv Hout Hlow Hhigh.
  apply levels_ge_2 in Hsize.
  destruct (handleTileClick_cases st tileIndex)
    as [Hsame|(_ & Hblank & Hadj & _)]; [done|].
  destruct (arr_indexOf_Some (board st) JNull _ eq_refl Hblank)
    as (Hrange & _).
  assert (arr_length (board st) = size st * size st) as Hlen.
  { destruct Hboard as [Hnil|Hp].
    - unfold arr_length in Hrange. rewrite Hnil in Hrange. simpl in Hrange. lia.
    - apply perm_length; [nia|done]. }
  rewrite Hlen in Hrange.
  destruct (out_of_range_adjacent _ _ _ Hsize Hrange Hout Hadj); tauto.
Qed.

Lemma session_blank_low_reachable : reachable session_blank_low.
Proof.
  pose (s1 := mkSession PLAYING (Some "img") 3
      (arr_of (JNum 1 :: JNum 2 :: JNull :: (JNum <$> [4; 5; 3; 7; 8; 6])))
      0 0).
  assert (step initial s1) as H1.
  { change s1 with (solvedEffect s1).
    apply (step_start initial "img" 3 0 rng_zero 0);
      [done|by vm_compute; apply list_elem_of_here
      |exact valid_rng_zero|by vm_compute]. }
  assert (step s1 (solvedEffect (tileOnClick s1 3))) as H2.
  { apply step_click; [done|]. vm_compute. repeat constructor. }
  assert (step (solvedEffect (tileOnClick s1 3))
               (solvedEffect (tileOnClick (solvedEffect (tileOnClick s1 3)) 5)))
    as H3.
  { apply step_click; [by vm_compute|]. vm_compute. repeat constructor. }
  assert (step (solvedEffect (tileOnClick (solvedEffect (tileOnClick s1 3)) 5))
               session_blank_low) as H4.
  { change session_blank_low with
      (solvedEffect
         (tileOnClick
            (solvedEffect (tileOnClick (solvedEffect (tileOnClick s1 3)) 5))
            8)).
    apply step_click; [by vm_compute|]. vm_compute. repeat constructor. }
  unfold reachable.
  eapply rtc_l; [exact H1|]. eapply rtc_l; [exact H2|].
  eapply rtc_l; [exact H3|]. by apply rtc_once.
Qed.

Lemma handleTileClick_out_of_range_witness :
  reachable session_blank_low ∧
  size session_blank_low * size session_blank_low ≤ 9 ∧
  arr_indexOf (board session_blank_low) JNull = 7 ∧
  handleTileClick session_blank_low 9 = session_blank_low.
Proof.
  split; [exact session_blank_low_reachable|].
  split; [by vm_compute|]. split; [by vm_compute|].
  apply handleTileClick_out_of_range;
    [exact session_blank_low_reachable|right; by vm_compute|..].
  - by vm_compute.
  - intros [Heq _]. by vm_compute in Heq.
Defined.

(** C9 as the specification words it fails.  The session
    [session_blank_low] is reached by a start and three clicks on tiles;
    its empty marker is in slot 7 of 9.  A click at index 10 is taken for
    a move: the array grows to 11 elements with the empty marker at its
    end, slot 7 is left undefined, and the move count goes from 3 to 4. *)
Lemma click_past_the_board :
  reachable session_blank_low ∧
  size session_blank_low * size session_blank_low ≤ 10 ∧
  handleTileClick session_blank_low 10 =
    mkSession PLAYING (Some "img") 3
      (arr_of ((JNum <$> [1; 2; 3; 4; 8; 5; 7]) ++
               [JUndefined; JNum 6; JUndefined; JNull])) 4 0 ∧
  board (handleTileClick session_blank_low 10) ≠ board session_blank_low ∧
  moves (handleTileClick session_blank_low 10) ≠ moves session_blank_low.
Proof.
  split; [exact session_blank_low_reachable|]. by vm_compute.
Qed.

(** C4 as the specification words it fails.  The board of the reachable
    session [session_blank_low] satisfies the invariant.  The tile click
    at index 10 exchanges the empty marker of slot 7 with the element past
    the end of the array: the board it leaves holds [undefined] in slot 7
    and in slot 9, and does not satisfy the invariant. *)
Lemma click_breaks_board_inv :
  reachable session_blank_low ∧
  board_inv (size session_blank_low * size session_blank_low)
            (board session_blank_low) ∧
  items (board (handleTileClick session_blank_low 10)) =
    (JNum <$> [1; 2; 3; 4; 8; 5; 7]) ++
    [JUndefined; JNum 6; JUndefined; JNull] ∧
  ¬ board_inv (size session_blank_low * size session_blank_low)
              (board (handleTileClick session_blank_low 10)).
Proof.
  split; [exact session_blank_low_reachable|]. split; [|split].
  - apply board_inv_of_perm.
    destruct (reachable_inv _ session_blank_low_reachable) as (_ & _ & Hboard).
    by destruct Hboard as [Hnil|Hp]; [|exact Hp].
  - by vm_compute.
  - intros (_ & _ & Hvalues).
    destruct (Hvalues JUndefined) as [?|(v & ? & _)]; [|done..].
    vm_compute. do 7 apply list_elem_of_further. apply list_elem_of_here.
Qed.

(** The other way out of the board: with the empty marker in slot 0, a
    click at index [-size] is taken for a move too.  The write at the
    negative key creates a property and leaves slot 0 undefined. *)
Example click_before_the_board :
  let st := mkSession PLAYING None 3 (arr_of (JNull :: (JNum <$> seqZ 1 8))) 0 0 in
  manhattan 3 (-3) 0 = 1 ∧
  handleTileClick st (-3) =
    mkSession PLAYING None 3
      (mkArray (JUndefined :: (JNum <$> seqZ 1 8)) {[ -3 := JNull ]}) 1 0.
Proof. by vm_compute. Qed.

(** * Further properties of the code *)

(** ** [shuffleBoard] on other sides *)

(** X1.  [shuffleBoard] does not depend on the selector's three sizes: for
    every side of at least 2 and draws of the unit interval, a returned
    board is a dense array of [s²] elements without extra properties, an
    arrangement of the solved layout that satisfies the board invariant,
    not solved, and reached from the solved layout by legal slides. *)
Theorem shuffleBoard_any_side (s : Z) (rnd : Rng) (fuel c : nat) (b : JsArray) :
  2 ≤ s → valid_rng rnd →
  shuffleBoard fuel s rnd c = Some b →
  items b ≡ₚ solved_items (s * s) ∧
  board_inv (s * s) b ∧
  arr_length b = s * s ∧
  props b = ∅ ∧
  isSolved b = false ∧
  slide_reachable s b.
Proof.
  intros Hs Hrnd (Hns & k & ->)%shuffleBoard_Some.
  destruct (shuffle_walk_inv s Hs rnd (c + k * walk_length s)%nat Hrnd)
    as (Hp & Hprops & Hreach).
  split; [done|]. split; [by apply board_inv_of_perm|].
  split; [apply perm_length; [nia|done]|done].
Qed.

Lemma shuffleBoard_any_side_witness :
  2 ≤ 2 ∧ valid_rng rng_alternating ∧
  shuffleBoard 0 2 rng_alternating 0 =
    Some (arr_of [JNum 3; JNum 1; JNum 2; JNull]) ∧
  board_inv (2 * 2) (arr_of [JNum 3; JNum 1; JNum 2; JNull]) ∧
  slide_reachable 2 (arr_of [JNum 3; JNum 1; JNum 2; JNull]).
Proof.
  assert (shuffleBoard 0 2 rng_alternating 0 =
          Some (arr_of [JNum 3; JNum 1; JNum 2; JNull])) as Hval
    by (by vm_compute).
  split; [lia|]. split; [exact valid_rng_alternating|]. split; [exact Hval|].
  destruct (shuffleBoard_any_side 2 rng_alternating 0 0 _ ltac:(lia)
              valid_rng_alternating Hval) as (_ & Hinv & _ & _ & _ & Hreach).
  split; [exact Hinv|exact Hreach].
Defined.

(** Two iterations of the walk on a board of side 1: there is no legal
    direction, the first iteration exchanges slot 0 with the property
    [-1], the second one finds UP alone and exchanges them back. *)
Lemma side_1_two_iterations (a : JsArray) (r1 r2 : Q) :
  items a = [JNull] → valid_draw r2 →
  ∃ a', shuffle_step 1 r2 (shuffle_step 1 r1 (a, 0)) = (a', 0) ∧
        items a' = [JNull].
Proof.
  intros Hitems Hr2. destruct a as [l p]. simpl in Hitems. subst l.
  assert (pickMove r1 (possibleMoves 1 0) = None) as Hp1.
  { unfold pickMove. change (possibleMoves 1 0) with (@nil Direction).
    case_decide; [apply lookup_nil|done]. }
  assert (pickMove r2 (possibleMoves 1 (-1)) = Some UP) as Hp2.
  { change (possibleMoves 1 (-1)) with [UP].
    destruct (pickMove_Some r2 [UP] Hr2) as (d & -> & Hd); [done|simpl; lia|].
    by apply list_elem_of_singleton in Hd as ->. }
  unfold shuffle_step at 2. cbv beta iota zeta. rewrite Hp1.
  change (targetIndex 1 0 None) with (-1).
  unfold shuffle_step. cbv beta iota zeta. rewrite Hp2.
  change (targetIndex 1 (-1) (Some UP)) with 0.
  eexists. split; [reflexivity|].
  unfold arr_swap, arr_set, arr_get, arr_length. simpl.
  by rewrite lookup_insert_eq.
Qed.

Lemma side_1_walk (rnd : Rng) (k c : nat) (a : JsArray) :
  valid_rng rnd → items a = [JNull] →
  ∃ a', shuffle_loop 1 rnd (2 * k) c (a, 0) = (a', 0) ∧ items a' = [JNull].
Proof.
  intros Hrnd. revert c a. induction k as [|k IH]; intros c a Hitems.
  { exists a. by split. }
  replace (2 * S k)%nat with (S (S (2 * k))) by lia.
  change (shuffle_loop 1 rnd (S (S (2 * k))) c (a, 0))
    with (shuffle_loop 1 rnd (2 * k) (S (S c))
            (shuffle_step 1 (rnd (S c)) (shuffle_step 1 (rnd c) (a, 0)))).
  destruct (side_1_two_iterations a (rnd c) (rnd (S c)) Hitems (Hrnd (S c)))
    as (a1 & -> & Hitems1).
  by apply IH.
Qed.

(** X2.  Below side 2 [shuffleBoard] never returns, whatever the draws of
    the unit interval.  For side 1 the ten iterations bring the single
    empty marker back to slot 0; for side 0 the write of [null] at index
    [-1] creates the property that [isSolved] then reads as the last slot.
    Either way the board after the walk is solved and the function calls
    itself again. *)
Theorem shuffleBoard_below_side_2 (s : Z) (rnd : Rng) (fuel c : nat) :
  0 ≤ s ≤ 1 → valid_rng rnd → shuffleBoard fuel s rnd c = None.
Proof.
  intros Hs Hrnd.
  assert (∀ c', isSolved (shuffle_walk s rnd c') = true) as Hsolved.
  { intros c'. assert (s = 0 ∨ s = 1) as [->| ->] by lia.
    - by vm_compute.
    - unfold shuffle_walk, walk_length.
      change (Z.to_nat (1 * 1 * 10)) with (2 * 5)%nat.
      destruct (side_1_walk rnd 5 c' (solvedBoard (1 * 1)) Hrnd eq_refl)
        as (a' & Heq & Hitems).
      change (1 * 1 - 1) with 0. rewrite Heq. simpl.
      unfold isSolved, arr_get, arr_length. rewrite Hitems. by vm_compute. }
  revert c. induction fuel as [|fuel IH]; intros c;
    rewrite shuffleBoard_unfold, Hsolved; [done|apply IH].
Qed.

Lemma shuffleBoard_below_side_2_witness :
  0 ≤ 1 ≤ 1 ∧ valid_rng rng_alternating ∧
  shuffleBoard 7 1 rng_alternating 0 = None.
Proof.
  split; [lia|]. split; [exact valid_rng_alternating|].
  apply shuffleBoard_below_side_2; [lia|exact valid_rng_alternating].
Defined.

(** ** The first click after a shuffle *)

(** Each iteration of the walk moves the empty marker by one row or one
    column. *)
Lemma shuffle_step_parity (s : Z) (r : Q) (st : JsArray * Z) :
  2 ≤ s → valid_draw r → walk_inv s st →
  Z.even (slot_x s (shuffle_step s r st).2 + slot_y s (shuffle_step s r st).2) =
  negb (Z.even (slot_x s st.2 + slot_y s st.2)).
Proof.
  intros Hs Hr Hinv.
  destruct (shuffle_step_spec s Hs r st Hr Hinv)
    as (d & Hd & _ & _ & _ & ->).
  destruct Hinv as (_ & _ & Hblank & _).
  destruct (target_coords s Hs st.2 d Hblank Hd) as [_ Hc]. cbn [snd].
  set (x := slot_x s st.2) in *. set (y := slot_y s st.2) in *.
  destruct d; destruct Hc as [-> ->].
  - replace (x + (y + 1)) with (x + y + 1) by lia.
    rewrite Z.even_add. by destruct (Z.even (x + y)).
  - replace (x + (y - 1)) with (x + y - 1) by lia.
    rewrite Z.even_sub. by destruct (Z.even (x + y)).
  - replace (x + 1 + y) with (x + y + 1) by lia.
    rewrite Z.even_add. by destruct (Z.even (x + y)).
  - replace (x - 1 + y) with (x + y - 1) by lia.
    rewrite Z.even_sub. by destruct (Z.even (x + y)).
Qed.

Lemma shuffle_loop_parity (s : Z) (rnd : Rng) (n c : nat) (st : JsArray * Z) :
  2 ≤ s → valid_rng rnd → walk_inv s st →
  Z.even (slot_x s (shuffle_loop s rnd n c st).2 +
          slot_y s (shuffle_loop s rnd n c st).2 + Z.of_nat n) =
  Z.even (slot_x s st.2 + slot_y s st.2).
Proof.
  intros Hs Hrnd. revert c st. induction n as [|n IH]; intros c st Hinv.
  { simpl. by rewrite Z.add_0_r. }
  pose proof (Hrnd c) as Hr. simpl shuffle_loop.
  replace (Z.of_nat (S n)) with (Z.of_nat n + 1) by lia.
  rewrite Z.add_assoc, Z.even_add, IH by (by apply shuffle_step_inv).
  rewrite shuffle_step_parity by done.
  by destruct (Z.even (slot_x s st.2 + slot_y s st.2)).
Qed.

(** The walk has an even number of iterations, so it leaves the empty
    marker on a slot whose column and row add up to an even number, as the
    corner it started from. *)
Lemma shuffle_walk_blank_parity (s : Z) (rnd : Rng) (c : nat) :
  2 ≤ s → valid_rng rnd →
  Z.even (slot_x s (shuffle_loop s rnd (walk_length s) c (walk_start s)).2 +
          slot_y s (shuffle_loop s rnd (walk_length s) c (walk_start s)).2)
  = true.
Proof.
  intros Hs Hrnd.
  pose proof (shuffle_loop_parity s rnd (walk_length s) c (walk_start s) Hs Hrnd
                (walk_inv_start s Hs)) as Hpar.
  rewrite Z.even_add in Hpar.
  assert (Z.even (Z.of_nat (walk_length s)) = true) as Hlen.
  { unfold walk_length. rewrite Z2Nat.id by nia.
    replace (s * s * 10) with (2 * (s * s * 5)) by lia.
    by rewrite Z.even_mul. }
  rewrite Hlen in Hpar.
  assert (Z.even (slot_x s (walk_start s).2 + slot_y s (walk_start s).2) = true)
    as Hstart.
  { unfold walk_start. cbn [snd].
    replace (s * s - 1) with ((s - 1) + s * (s - 1)) by lia.
    destruct (slot_compose s ltac:(lia) (s - 1) (s - 1)) as [-> ->]; [lia..|].
    replace (s - 1 + (s - 1)) with (2 * (s - 1)) by lia.
    by rewrite Z.even_mul. }
  rewrite Hstart in Hpar.
  by destruct (Z.even (_ + _)).
Qed.

(** A swap with an index outside a dense array leaves [undefined] in the
    in-range slot and does not shorten the array. *)
Lemma arr_swap_outside (a : JsArray) (t k : Z) :
  ¬ (0 ≤ t < arr_length a) → 0 ≤ k < arr_length a → props a = ∅ →
  arr_get (arr_swap a t k) k = JUndefined ∧
  arr_length a ≤ arr_length (arr_swap a t k).
Proof.
  intros Ht Hk Hprops. unfold arr_swap.
  assert (arr_get a t = JUndefined) as ->.
  { destruct (decide (t < 0)).
    - unfold arr_get. rewrite decide_False by lia.
      by rewrite Hprops, lookup_empty.
    - apply arr_get_past_end. lia. }
  set (a1 := arr_set a t (arr_get a k)).
  assert (arr_length a ≤ arr_length a1) as Hlen.
  { unfold a1, arr_set. destruct (decide (t < 0)); [done|].
    rewrite decide_False by lia. unfold arr_length. simpl.
    rewrite length_app. lia. }
  rewrite arr_set_in_range by lia. split.
  - unfold arr_get. rewrite decide_True by lia. simpl.
    rewrite list_lookup_insert_eq; [done|]. unfold arr_length in *. lia.
  - unfold arr_length in *. simpl. rewrite length_insert. lia.
Qed.

(** The index [handleTileClick] finds on an arrangement of the solved
    layout is the slot that reads [null]. *)
Lemma perm_indexOf_blank (n : Z) (b : JsArray) (blank : Z) :
  items b ≡ₚ solved_items n → 0 ≤ blank < arr_length b →
  arr_get b blank = JNull → arr_indexOf b JNull = blank.
Proof.
  intros Hp Hblank Hnull. apply arr_indexOf_unique; [done..|].
  intros k Hk Hgk. by apply (perm_blank_unique n b).
Qed.

(** X3.  A game is never one click away from its end when it starts: on a
    board returned by [shuffleBoard] for a side of at least 2, the board a
    click leaves is not solved, whatever the index clicked.  (The walk
    makes an even number of slides, and the layouts one slide away from the
    solved one take an odd number.) *)
Theorem first_click_never_solves
    (s : Z) (rnd : Rng) (fuel c : nat) (b : JsArray)
    (st : Session) (tileIndex : Z) :
  2 ≤ s → valid_rng rnd →
  shuffleBoard fuel s rnd c = Some b →
  board st = b → size st = s →
  isSolved (board (handleTileClick st tileIndex)) = false.
Proof.
  intros Hs Hrnd (Hns & k & Hwalk)%shuffleBoard_Some Hboard Hsize.
  set (c' := (c + k * walk_length s)%nat) in *.
  pose proof (shuffle_walk_blank_parity s rnd c' Hs Hrnd) as Heven.
  pose proof (shuffle_loop_inv s Hs rnd (walk_length s) c' (walk_start s) Hrnd
                (walk_inv_start s Hs)) as Hinv.
  pose proof (walk_inv_length s Hs _ Hinv) as Hlen.
  destruct Hinv as (Hp & Hprops & Hblank & Hnull & _).
  change (shuffle_loop s rnd (walk_length s) c' (walk_start s)).1
    with (shuffle_walk s rnd c') in Hp, Hprops, Hnull, Hlen.
  set (blank := (shuffle_loop s rnd (walk_length s) c' (walk_start s)).2) in *.
  subst b. rewrite <-Hboard in Hp, Hprops, Hnull, Hlen, Hns.
  pose proof (perm_indexOf_blank _ _ blank Hp ltac:(lia) Hnull) as Hidx.
  destruct (handleTileClick_cases st tileIndex)
    as [->|(_ & _ & Hadj & ->)]; [done|].
  rewrite Hidx, Hsize in *. simpl. apply not_true_is_false. intros Hsolved.
  apply isSolved_spec in Hsolved as [Htiles Hlast].
  destruct (decide (0 ≤ tileIndex < s * s)) as [Ht|Ht].
  - destruct (click_swap_slots (board st) tileIndex blank) as
      (Hlen' & Hp' & _ & _ & Hgt & _); [lia|lia|done|].
    rewrite Hlen', Hlen in Hlast.
    assert (tileIndex ≠ blank) as Hne.
    { intros ->. rewrite manhattan_self in Hadj. lia. }
    assert (tileIndex = s * s - 1) as ->.
    { apply (perm_blank_unique (s * s)
               (arr_swap (arr_spread (board st)) tileIndex blank));
        [by rewrite Hp'|lia|lia|by apply Hgt|done]. }
    unfold manhattan in Hadj.
    replace (s * s - 1) with ((s - 1) + s * (s - 1)) in Hadj by lia.
    destruct (slot_compose s ltac:(lia) (s - 1) (s - 1)) as [Hx Hy]; [lia..|].
    rewrite Hx, Hy in Hadj.
    apply Z.even_spec in Heven as [m Hm]. lia.
  - assert (arr_length (arr_spread (board st)) = s * s) as Hlen2 by exact Hlen.
    destruct (arr_swap_outside (arr_spread (board st)) tileIndex blank)
      as [Hundef Hgrow]; [by rewrite Hlen2|by rewrite Hlen2|done|].
    rewrite Hlen2 in Hgrow.
    set (b' := arr_swap (arr_spread (board st)) tileIndex blank) in *.
    destruct (decide (blank = arr_length b' - 1)) as [Heq|Hneq].
    + rewrite <-Heq in Hlast. congruence.
    + specialize (Htiles blank ltac:(lia)). congruence.
Qed.

Lemma first_click_never_solves_witness :
  let st := mkSession PLAYING (Some "img") 2
              (arr_of [JNum 3; JNum 1; JNum 2; JNull]) 0 0 in
  2 ≤ 2 ∧ valid_rng rng_alternating ∧
  shuffleBoard 0 2 rng_alternating 0 = Some (board st) ∧
  isSolved (board (handleTileClick st 2)) = false ∧
  isSolved (board (handleTileClick st 5)) = false.
Proof.
  assert (shuffleBoard 0 2 rng_alternating 0 =
          Some (arr_of [JNum 3; JNum 1; JNum 2; JNull])) as Hval
    by (by vm_compute).
  split; [lia|]. split; [exact valid_rng_alternating|]. split; [exact Hval|].
  split.
  - exact (first_click_never_solves 2 rng_alternating 0 0 _
             (mkSession PLAYING (Some "img") 2
                (arr_of [JNum 3; JNum 1; JNum 2; JNull]) 0 0) 2
             ltac:(lia) valid_rng_alternating Hval eq_refl eq_refl).
  - exact (first_click_never_solves 2 rng_alternating 0 0 _
             (mkSession PLAYING (Some "img") 2
                (arr_of [JNum 3; JNum 1; JNum 2; JNull]) 0 0) 5
             ltac:(lia) valid_rng_alternating Hval eq_refl eq_refl).
Defined.

(** ** Winning a shuffled game *)

Lemma arr_spread_id (a : JsArray) : props a = ∅ → arr_spread a = a.
Proof. intros Hprops. by apply JsArray_eq. Qed.

(** A legal slide is undone by the slide of the same tile back. *)
Lemma slide_sym (s : Z) (b b' : JsArray) : slide s b b' → slide s b' b.
Proof.
  intros [t k Ht Hk Hnull Hadj].
  assert (t ≠ k) as Hne.
  { intros ->. rewrite manhattan_self in Hadj. lia. }
  pose proof (arr_length_swap b t k Ht Hk) as Hlen.
  assert (arr_swap (arr_swap b t k) k t = b) as Hback.
  { apply JsArray_eq.
    - apply items_ext; [by rewrite arr_length_swap by lia|].
      intros i Hi. rewrite arr_length_swap in Hi by lia.
      rewrite !arr_get_swap by lia.
      repeat (destruct (decide _)); subst; (done || lia).
    - by rewrite !arr_swap_props by lia. }
  rewrite <-Hback at 2. apply slide_intro; [lia|lia| |by rewrite manhattan_sym].
  rewrite arr_get_swap by lia. rewrite decide_False by done.
  by rewrite decide_True.
Qed.

Lemma rtc_slide_sym (s : Z) (b b' : JsArray) :
  rtc (slide s) b b' → rtc (slide s) b' b.
Proof.
  induction 1 as [|x y z Hxy _ IH]; [done|].
  eapply rtc_r; [exact IH|]. by apply slide_sym.
Qed.

(** Clicking along a path of slides that ends on the solved layout ends
    the game, at the first solved board met. *)
Lemma win_along_slides (s : Z) (b : JsArray) :
  2 ≤ s → rtc (slide s) b (solvedBoard (s * s)) →
  ∀ st, board st = b → size st = s → status st = PLAYING →
        isSolved b = false → items b ≡ₚ solved_items (s * s) → props b = ∅ →
  ∃ tiles : list Z,
    Forall (λ t, 0 ≤ t < s * s) tiles ∧
    status (play_all st (Click <$> tiles)) = SOLVED ∧
    isSolved (board (play_all st (Click <$> tiles))) = true ∧
    moves (play_all st (Click <$> tiles)) = moves st + Z.of_nat (length tiles).
Proof.
  intros Hs Hpath. remember (solvedBoard (s * s)) as goal eqn:Hgoal.
  induction Hpath as [b0|b0 b1 b2 Hslide Hpath IH];
    intros st Hboard Hsize Hplay Hns Hp Hprops.
  { subst b0. rewrite isSolved_solvedBoard in Hns by nia. done. }
  destruct Hslide as [t k Ht Hk Hnull Hadj].
  pose proof (perm_length (s * s) b0 ltac:(nia) Hp) as Hlen.
  pose proof (perm_indexOf_blank _ _ k Hp Hk Hnull) as Hidx.
  assert (handleTileClick st t =
          mkSession PLAYING (imageSrc st) s (arr_swap b0 t k)
                    (moves st + 1) (time st)) as Hclick.
  { rewrite handleTileClick_adjacent; rewrite ?Hboard, ?Hidx, ?Hsize;
      [|done|lia|done].
    by rewrite arr_spread_id. }
  set (st1 := mkSession PLAYING (imageSrc st) s (arr_swap b0 t k)
                        (moves st + 1) (time st)) in *.
  destruct (isSolved (arr_swap b0 t k)) eqn:Hsolved.
  - exists [t]. split; [apply Forall_singleton; lia|].
    simpl. unfold play_all. simpl. rewrite Hclick.
    unfold solvedEffect. simpl. rewrite Hsolved. simpl.
    split; [done|]. split; [done|lia].
  - destruct (IH Hgoal st1) as (tiles & Hall & Hst & Hb & Hm); try done.
    { by rewrite arr_swap_perm by lia. }
    { by rewrite arr_swap_props by lia. }
    exists (t :: tiles). split; [apply Forall_cons; split; [lia|done]|].
    assert (play_all st (Click <$> t :: tiles) =
            play_all st1 (Click <$> tiles)) as ->.
    { unfold play_all. simpl. rewrite Hclick.
      unfold solvedEffect. simpl. by rewrite Hsolved. }
    split; [done|]. split; [done|]. rewrite Hm. simpl. lia.
Qed.

(** X4.  Every shuffled game can be won: from a [PLAYING] session on a
    board returned by [shuffleBoard] (side at least 2) there is a sequence
    of clicks on slots of the board after which the status is [SOLVED],
    the board is the solved layout, and every click of the sequence has
    counted as a move. *)
Theorem shuffled_game_winnable
    (s : Z) (rnd : Rng) (fuel c : nat) (b : JsArray) (st : Session) :
  2 ≤ s → valid_rng rnd →
  shuffleBoard fuel s rnd c = Some b →
  status st = PLAYING → board st = b → size st = s →
  ∃ tiles : list Z,
    Forall (λ t, 0 ≤ t < s * s) tiles ∧
    status (play_all st (Click <$> tiles)) = SOLVED ∧
    isSolved (board (play_all st (Click <$> tiles))) = true ∧
    moves (play_all st (Click <$> tiles)) = moves st + Z.of_nat (length tiles).
Proof.
  intros Hs Hrnd (Hns & k & ->)%shuffleBoard_Some Hplay Hboard Hsize.
  destruct (shuffle_walk_inv s Hs rnd (c + k * walk_length s)%nat Hrnd)
    as (Hp & Hprops & Hreach).
  apply (win_along_slides s (shuffle_walk s rnd (c + k * walk_length s)%nat));
    try done.
  by apply rtc_slide_sym.
Qed.

Lemma shuffled_game_winnable_witness :
  let st := mkSession PLAYING (Some "img") 2
              (arr_of [JNum 3; JNum 1; JNum 2; JNull]) 0 0 in
  2 ≤ 2 ∧ valid_rng rng_alternating ∧
  shuffleBoard 0 2 rng_alternating 0 = Some (board st) ∧
  ∃ tiles : list Z,
    status (play_all st (Click <$> tiles)) = SOLVED ∧
    isSolved (board (play_all st (Click <$> tiles))) = true.
Proof.
  assert (shuffleBoard 0 2 rng_alternating 0 =
          Some (arr_of [JNum 3; JNum 1; JNum 2; JNull])) as Hval
    by (by vm_compute).
  split; [lia|]. split; [exact valid_rng_alternating|]. split; [exact Hval|].
  destruct (shuffled_game_winnable 2 rng_alternating 0 0 _
              (mkSession PLAYING (Some "img") 2
                 (arr_of [JNum 3; JNum 1; JNum 2; JNull]) 0 0)
              ltac:(lia) valid_rng_alternating Hval eq_refl eq_refl eq_refl)
    as (tiles & _ & Hst & Hb & _).
  exists tiles. split; [exact Hst|exact Hb].
Defined.

(** ** What the status says about a session *)

Lemma solvedEffect_status_inv (st : Session) :
  0 ≤ moves st →
  (status st ≠ SELECTING →
     imageSrc st ≠ None ∧
     items (board st) ≡ₚ solved_items (size st * size st) ∧
     props (board st) = ∅) →
  (status st = PLAYING → time st < timeLimit st) →
  (status st = SOLVED → isSolved (board st) = true) →
  (status st = TIME_UP → time st = timeLimit st) →
  session_status_inv (solvedEffect st).
Proof.
  intros Hmoves Hgame Hplay Hsolved Hup. unfold solvedEffect.
  destruct (decide (status st = PLAYING)) as [Hst|Hst].
  - destruct (isSolved (board st)) eqn:Hb.
    + unfold session_status_inv. simpl. split; [done|].
      split; [intros _; apply Hgame; congruence|].
      split; [intros Hx; discriminate Hx|].
      split; [done|intros Hx; discriminate Hx].
    + unfold session_status_inv. split; [done|]. split; [done|].
      split; [by auto|]. split; [congruence|congruence].
  - unfold session_status_inv. split; [done|]. split; [done|].
    split; [done|]. by split.
Qed.

Lemma shuffleBoard_props fuel s rnd c b :
  s ∈ levels → valid_rng rnd → shuffleBoard fuel s rnd c = Some b →
  props b = ∅ ∧ isSolved b = false.
Proof.
  intros Hs%levels_ge_2 Hrnd (Hns & k & ->)%shuffleBoard_Some.
  by destruct (shuffle_walk_inv s Hs rnd (c + k * walk_length s)%nat Hrnd)
    as (_ & Hprops & _).
Qed.

Lemma levels_limit_pos (s : Z) : s ∈ levels → 0 < s * s * 10.
Proof. intros Hs%levels_ge_2. nia. Qed.

Lemma step_status_inv (st st' : Session) :
  session_inv st → session_status_inv st → step st st' →
  session_status_inv st'.
Proof.
  intros (Hsize & _ & _) (Hmoves & Hgame & Hplay & Hsolved & Hup) Hstep.
  destruct Hstep as [img level fuel rnd c st1 _ Hlevel Hrnd Hstart|Hsel
                    |fuel rnd c st1 Hsel Hrnd Hreset|Hsel|value Hsel Hvalue| ].
  - unfold handleGameStart in Hstart.
    destruct (shuffleBoard fuel level rnd c) as [b|] eqn:Hb; simplify_eq/=.
    destruct (shuffleBoard_props _ _ _ _ _ Hlevel Hrnd Hb) as [Hprops Hns].
    apply solvedEffect_status_inv; simpl; try done.
    + intros _. split; [done|]. split; [by eapply shuffleBoard_perm|done].
    + intros _. unfold timeLimit. simpl. by apply levels_limit_pos.
  - apply solvedEffect_status_inv; by simpl.
  - unfold handleReset in Hreset.
    destruct (shuffleBoard fuel (size st) rnd c) as [b|] eqn:Hb; simplify_eq/=.
    destruct (shuffleBoard_props _ _ _ _ _ Hsize Hrnd Hb) as [Hprops Hns].
    apply solvedEffect_status_inv; simpl; try done.
    + intros _. split; [by apply Hgame|].
      split; [by eapply shuffleBoard_perm|done].
    + intros _. unfold timeLimit. simpl. by apply levels_limit_pos.
  - apply levels_ge_2 in Hsize.
    apply solvedEffect_status_inv; simpl; try done.
    + intros _. split; [by apply Hgame|].
      by rewrite solvedBoard_eq by nia.
    + intros _. apply isSolved_solvedBoard. nia.
  - destruct (Hgame Hsel) as (Himg & Hp & Hprops).
    unfold tileOnClick. set (pos := arr_indexOf (board st) (JNum value)).
    destruct (handleTileClick_cases st pos) as [->|(Hst & Hblank & _ & ->)].
    { apply solvedEffect_status_inv; try done. intros Hst. by apply Hplay. }
    assert (0 ≤ pos < arr_length (board st)) as Hpos.
    { apply (arr_indexOf_Some _ (JNum value)); [done|].
      by intros Hnone%arr_indexOf_None. }
    destruct (arr_indexOf_Some (board st) JNull _ eq_refl Hblank)
      as (Hrange & Hnull & _).
    destruct (click_swap_slots (board st) pos _ Hpos Hrange Hnull)
      as (_ & Hp' & Hprops' & _).
    apply solvedEffect_status_inv; simpl; try done; try lia.
    + intros _. split; [done|]. split; [by rewrite Hp'|done].
    + intros _. by apply Hplay.
  - unfold timerTick. destruct (decide (status st = PLAYING)) as [Hst|Hst].
    + destruct (decide (time st + 1 >= timeLimit st)) as [Hge|Hlt].
      * apply solvedEffect_status_inv; simpl; try done.
        intros _. apply Hgame. congruence.
      * apply solvedEffect_status_inv; simpl;
          [done|intros _; apply Hgame; congruence
          |intros _; unfold timeLimit in *; simpl; lia
          |congruence|congruence].
    + by apply solvedEffect_status_inv.
Qed.

Lemma reachable_status_inv (st : Session) :
  reachable st → session_inv st ∧ session_status_inv st.
Proof.
  intros Hreach.
  apply (rtc_ind_r (R:=step) (λ st, session_inv st ∧ session_status_inv st)
           initial); [| |done].
  - split; [apply session_inv_initial|]. unfold session_status_inv. simpl.
    by repeat split.
  - intros y z _ Hstep [Hy Hy']. split; [by eapply step_inv|].
    by eapply step_status_inv.
Qed.

(** X5.  Once a game has been started, whatever the interface does next,
    the session carries an image, a size of the selector, and a board that
    is a dense array of [size²] elements without extra properties, holding
    one empty marker and each tile of [1 .. size² - 1] once; no slot is
    ever [undefined]. *)
Theorem reachable_game_board (st : Session) :
  reachable st → status st ≠ SELECTING →
  size st ∈ levels ∧
  imageSrc st ≠ None ∧
  board_inv (size st * size st) (board st) ∧
  arr_length (board st) = size st * size st ∧
  props (board st) = ∅ ∧
  JUndefined ∉ items (board st).
Proof.
  intros [(Hsize & _) (_ & Hgame & _)]%reachable_status_inv Hsel.
  destruct (Hgame Hsel) as (Himg & Hp & Hprops).
  split; [done|]. split; [done|].
  split; [by apply board_inv_of_perm|].
  split; [apply perm_length; [apply levels_ge_2 in Hsize; nia|done]|].
  split; [done|]. rewrite Hp. intros Hin%elem_of_solved_items.
  by destruct Hin as [|(k & ? & _)].
Qed.

Lemma reachable_game_board_witness :
  reachable session_blank_low ∧
  status session_blank_low ≠ SELECTING ∧
  board_inv 9 (board session_blank_low) ∧
  arr_length (board session_blank_low) = 9.
Proof.
  split; [exact session_blank_low_reachable|]. split; [done|].
  destruct (reachable_game_board session_blank_low
              session_blank_low_reachable ltac:(done))
    as (_ & _ & Hinv & Hlen & _).
  split; [exact Hinv|exact Hlen].
Defined.

(** X6.  In every session the interface can reach the status agrees with
    the rest of the state: the move count is never negative; while
    [PLAYING] the board is not solved and the elapsed time is below the
    limit; [SOLVED] goes with a solved board; [TIME_UP] goes with an
    elapsed time equal to the limit. *)
Theorem reachable_status (st : Session) :
  reachable st →
  0 ≤ moves st ∧
  (status st = PLAYING →
     isSolved (board st) = false ∧ 0 ≤ time st < timeLimit st) ∧
  (status st = SOLVED → isSolved (board st) = true) ∧
  (status st = TIME_UP → time st = timeLimit st).
Proof.
  intros [(_ & Htime & _) (Hmoves & _ & Hplay & Hsolved & Hup)]%reachable_status_inv.
  split; [done|]. split; [|done].
  intros Hst. destruct (Hplay Hst). split; [done|lia].
Qed.

Lemma reachable_status_witness :
  reachable session_blank_low ∧
  status session_blank_low = PLAYING ∧
  isSolved (board session_blank_low) = false ∧
  0 ≤ time session_blank_low < timeLimit session_blank_low.
Proof.
  split; [exact session_blank_low_reachable|]. split; [done|].
  destruct (reachable_status session_blank_low session_blank_low_reachable)
    as (_ & Hplay & _).
  exact (Hplay eq_refl).
Defined.

(** ** Events on a game that is over *)

(** X7.  Outside [PLAYING] (on the selector page, after a win, after the
    time ran out) no click and no tick changes anything: any sequence of
    them leaves the session as it is. *)
Theorem game_over_frozen (st : Session) (evs : list PlayEvent) :
  status st ≠ PLAYING → play_all st evs = st.
Proof.
  intros Hidle. unfold play_all.
  induction evs as [|e evs IH]; [done|]. simpl.
  assert (play st e = st) as ->; [|done].
  destruct e as [t|]; simpl.
  - unfold handleTileClick. rewrite decide_True by done.
    by apply solvedEffect_idle.
  - rewrite timerTick_idle by done. by apply solvedEffect_idle.
Qed.

Lemma game_over_frozen_witness :
  let st := handleSolve session_blank_low in
  status st ≠ PLAYING ∧
  play_all st [Click 7; Tick; Click 8; Click 10; Tick] = st.
Proof.
  split; [done|].
  apply (game_over_frozen (handleSolve session_blank_low)). done.
Defined.

(** ** Counting moves *)

Lemma handleTileClick_moves (st : Session) (t : Z) :
  moves st ≤ moves (handleTileClick st t) ≤ moves st + 1.
Proof.
  destruct (handleTileClick_cases st t) as [->|(_ & _ & _ & ->)];
    simpl; lia.
Qed.

Lemma timerTick_moves (st : Session) : moves (timerTick st) = moves st.
Proof. unfold timerTick. by repeat case_decide. Qed.

Lemma clicks_cons (e : PlayEvent) (evs : list PlayEvent) :
  clicks (e :: evs) = clicks evs + (if decide (e = Tick) then 0 else 1).
Proof.
  unfold clicks. rewrite filter_cons.
  destruct (decide (e = Tick)) as [->|Hne].
  - rewrite decide_False by (by intros []). lia.
  - rewrite decide_True by done. simpl. lia.
Qed.

(** X8.  The move count never goes down under clicks and ticks, and grows
    by at most one per click: after any sequence of events it lies between
    its old value and its old value plus the number of clicks. *)
Theorem moves_bounded_by_clicks (st : Session) (evs : list PlayEvent) :
  moves st ≤ moves (play_all st evs) ≤ moves st + clicks evs.
Proof.
  revert st. induction evs as [|e evs IH]; intros st.
  { unfold clicks. simpl. lia. }
  change (play_all st (e :: evs)) with (play_all (play st e) evs).
  specialize (IH (play st e)). rewrite clicks_cons.
  assert (moves st ≤ moves (play st e) ≤
          moves st + (if decide (e = Tick) then 0 else 1)) as Hstep.
  { destruct e as [t|]; simpl.
    - destruct (solvedEffect_frame (handleTileClick st t)) as (_ & _ & _ & -> & _).
      apply handleTileClick_moves.
    - destruct (solvedEffect_frame (timerTick st)) as (_ & _ & _ & -> & _).
      rewrite timerTick_moves. lia. }
  lia.
Qed.

(** ** Clicking the same tile twice *)

Lemma perm_indexOf_value (n : Z) (b : JsArray) (i : Z) :
  items b ≡ₚ solved_items n → 0 ≤ i < arr_length b →
  arr_indexOf b (arr_get b i) = i.
Proof.
  intros Hp Hi. apply arr_indexOf_unique; [done..|].
  intros k Hk Heq.
  assert (NoDup (items b)) as Hnd by (rewrite Hp; apply NoDup_solved_items).
  assert (Z.to_nat k = Z.to_nat i); [|lia].
  eapply NoDup_lookup; [done|..].
  - rewrite arr_get_lookup by done. by rewrite Heq.
  - by rewrite arr_get_lookup by done.
Qed.

(** Exchanging two slots of a copy, then the same two slots of a copy of
    the result, gives the elements back. *)
Lemma click_back_items (b : JsArray) (t k : Z) :
  0 ≤ t < arr_length b → 0 ≤ k < arr_length b →
  items (arr_swap (arr_spread (arr_swap (arr_spread b) t k)) k t) = items b.
Proof.
  intros Ht Hk.
  assert (arr_length (arr_spread b) = arr_length b) as Hl0 by done.
  assert (arr_length (arr_swap (arr_spread b) t k) = arr_length b) as Hl1
    by (by rewrite arr_length_swap by lia).
  assert (arr_length (arr_spread (arr_swap (arr_spread b) t k)) = arr_length b)
    as Hl2 by exact Hl1.
  apply items_ext; [by rewrite arr_length_swap by lia|].
  intros i Hi. rewrite arr_length_swap, Hl2 in Hi by lia.
  rewrite arr_get_swap by lia.
  rewrite !arr_get_spread by lia.
  rewrite !arr_get_swap by lia.
  rewrite !arr_get_spread by lia.
  repeat (destruct (decide _)); subst; (done || lia).
Qed.

(** Two calls of the click handler of the tile [value], with no solved
    check in between: the second call finds the tile in the former empty
    slot and exchanges the two slots back. *)
Lemma tileOnClick_twice (st : Session) (value n : Z) :
  status st = PLAYING →
  items (board st) ≡ₚ solved_items n →
  JNum value ∈ items (board st) →
  manhattan (size st) (arr_indexOf (board st) (JNum value))
            (arr_indexOf (board st) JNull) = 1 →
  let st2 := tileOnClick (tileOnClick st value) value in
  items (board st2) = items (board st) ∧
  props (board st2) = ∅ ∧
  moves st2 = moves st + 2 ∧
  status st2 = PLAYING.
Proof.
  intros Hplay Hp Hvalue Hadj. cbv zeta. unfold tileOnClick.
  set (t := arr_indexOf (board st) (JNum value)) in *.
  set (k := arr_indexOf (board st) JNull) in *.
  assert (t ≠ -1) as Ht0 by (by intros Hnone%arr_indexOf_None).
  destruct (arr_indexOf_Some (board st) (JNum value) t eq_refl Ht0)
    as (Ht & Hgt & _).
  assert (k ≠ -1) as Hk0.
  { intros Hnone%arr_indexOf_None. apply Hnone. rewrite Hp.
    apply elem_of_solved_items. by left. }
  destruct (arr_indexOf_Some (board st) JNull k eq_refl Hk0) as (Hk & Hgk & _).
  assert (t ≠ k) as Hne.
  { intros Heq. rewrite Heq, manhattan_self in Hadj. lia. }
  rewrite (handleTileClick_adjacent st t) by done. fold k.
  set (b1 := arr_swap (arr_spread (board st)) t k).
  destruct (click_swap_slots (board st) t k Ht Hk Hgk)
    as (Hlen1 & Hp1 & Hprops1 & Hg1k & Hg1t & _).
  fold b1 in Hlen1, Hp1, Hprops1, Hg1k, Hg1t. specialize (Hg1t Hne).
  assert (items b1 ≡ₚ solved_items n) as Hp1' by (by rewrite Hp1).
  assert (arr_indexOf b1 (JNum value) = k) as Hidx_v.
  { rewrite <-Hgt, <-Hg1k. apply (perm_indexOf_value n); [done|lia]. }
  assert (arr_indexOf b1 JNull = t) as Hidx_b.
  { apply (perm_indexOf_blank n); [done|lia|done]. }
  simpl. rewrite Hidx_v.
  rewrite handleTileClick_adjacent; simpl; rewrite ?Hidx_b;
    [|done|lia|by rewrite manhattan_sym].
  assert (arr_length (arr_spread b1) = arr_length (board st)) as Hlen2
    by exact Hlen1.
  split; [by apply click_back_items|].
  split; [by rewrite arr_swap_props by (rewrite Hlen2; lia)|].
  split; [lia|done].
Qed.

(** X9.  On the page, where the solved check runs after every click:
    on an arrangement of the solved layout, the click on the tile [value]
    next to the empty slot counts as a move.  When it leaves a board that
    is not solved, the game goes on and a second click on the same tile
    puts every element back where it was and counts as a second move, the
    game ending only if that board was solved to begin with.  When the
    first click solves the board, the game ends there: the status is
    [SOLVED] and the second click changes nothing. *)
Theorem tile_clicked_twice (st : Session) (value n : Z) :
  status st = PLAYING →
  items (board st) ≡ₚ solved_items n →
  JNum value ∈ items (board st) →
  manhattan (size st) (arr_indexOf (board st) (JNum value))
            (arr_indexOf (board st) JNull) = 1 →
  let st1 := solvedEffect (tileOnClick st value) in
  let st2 := solvedEffect (tileOnClick st1 value) in
  moves st1 = moves st + 1 ∧
  if isSolved (board st1)
  then status st1 = SOLVED ∧ st2 = st1
  else status st1 = PLAYING ∧
       items (board st2) = items (board st) ∧
       props (board st2) = ∅ ∧
       moves st2 = moves st + 2 ∧
       status st2 = if isSolved (board st) then SOLVED else PLAYING.
Proof.
  intros Hplay Hp Hvalue Hadj. cbv zeta.
  destruct (tileOnClick_twice st value n Hplay Hp Hvalue Hadj)
    as (Hitems & Hprops & Hmoves & Hstatus).
  assert (arr_indexOf (board st) JNull ≠ -1) as Hblank.
  { intros Hnone%arr_indexOf_None. apply Hnone. rewrite Hp.
    apply elem_of_solved_items. by left. }
  assert (status (tileOnClick st value) = PLAYING ∧
          moves (tileOnClick st value) = moves st + 1) as [Hplay1 Hmoves1].
  { unfold tileOnClick. by rewrite handleTileClick_adjacent. }
  set (raw1 := tileOnClick st value) in *.
  destruct (isSolved (board raw1)) eqn:Hsolved.
  - assert (solvedEffect raw1 =
            mkSession SOLVED (imageSrc raw1) (size raw1) (board raw1)
                      (moves raw1) (time raw1)) as ->.
    { unfold solvedEffect. by rewrite decide_True, Hsolved by done. }
    cbn [board moves status]. rewrite Hsolved.
    split; [done|]. split; [done|].
    unfold tileOnClick, handleTileClick. cbn [status].
    rewrite decide_True by done.
    unfold solvedEffect. cbn [status]. by rewrite decide_False.
  - assert (solvedEffect raw1 = raw1) as ->.
    { unfold solvedEffect. by rewrite decide_True, Hsolved by done. }
    rewrite Hsolved. split; [done|]. split; [done|].
    set (raw2 := tileOnClick raw1 value) in *.
    destruct (solvedEffect_frame raw2) as (_ & _ & Hboard2 & Hmoves2 & _).
    rewrite Hboard2, Hmoves2. do 3 (split; [done|]).
    assert (isSolved (board raw2) = isSolved (board st)) as Hsame.
    { assert (arr_length (board raw2) = arr_length (board st)) as Hlen
        by (unfold arr_length; by rewrite Hitems).
      assert (0 < arr_length (board st)) as Hpos.
      { unfold arr_length. apply list_elem_of_lookup_1 in Hvalue as [i Hi].
        apply lookup_lt_Some in Hi. lia. }
      apply eq_true_iff_eq.
      rewrite !isSolved_solved_items by lia. by rewrite Hitems, Hlen. }
    unfold solvedEffect. rewrite decide_True by done. rewrite Hsame.
    by destruct (isSolved (board st)).
Qed.

(** A 3×3 game one click from its end: tile 8 is left of the empty slot. *)
Lemma tile_clicked_twice_witness :
  let st := mkSession PLAYING (Some "img") 3
              (arr_of ((JNum <$> [1; 2; 3; 4; 5; 6; 7]) ++ [JNull; JNum 8])) 9 0 in
  (status session_blank_low = PLAYING ∧
   items (board session_blank_low) ≡ₚ solved_items 9 ∧
   arr_indexOf (board session_blank_low) (JNum 8) = 4 ∧
   arr_indexOf (board session_blank_low) JNull = 7 ∧
   items (board (solvedEffect (tileOnClick
            (solvedEffect (tileOnClick session_blank_low 8)) 8))) =
     items (board session_blank_low) ∧
   moves (solvedEffect (tileOnClick
            (solvedEffect (tileOnClick session_blank_low 8)) 8)) = 5) ∧
  (items (board st) ≡ₚ solved_items 9 ∧
   status (solvedEffect (tileOnClick st 8)) = SOLVED ∧
   moves (solvedEffect (tileOnClick st 8)) = 10 ∧
   solvedEffect (tileOnClick (solvedEffect (tileOnClick st 8)) 8) =
     solvedEffect (tileOnClick st 8)).
Proof.
  cbv zeta.
  assert (items (board session_blank_low) ≡ₚ solved_items 9) as Hp.
  { destruct (reachable_status_inv _ session_blank_low_reachable)
      as [_ (_ & Hgame & _)].
    by destruct Hgame as (_ & Hp & _). }
  assert (items (arr_of ((JNum <$> [1; 2; 3; 4; 5; 6; 7]) ++ [JNull; JNum 8]))
          ≡ₚ solved_items 9) as Hp'.
  { vm_compute. do 7 apply perm_skip. apply perm_swap. }
  split.
  - split; [done|]. split; [exact Hp|].
    split; [by vm_compute|]. split; [by vm_compute|].
    pose proof (tile_clicked_twice session_blank_low 8 9 eq_refl Hp) as Htwice.
    cbv zeta in Htwice.
    destruct Htwice as (_ & Hcase).
    + vm_compute. repeat constructor.
    + by vm_compute.
    + replace (isSolved (board (solvedEffect (tileOnClick session_blank_low 8))))
        with false in Hcase by (by vm_compute).
      destruct Hcase as (_ & Hitems & _ & Hmoves & _).
      split; [exact Hitems|exact Hmoves].
  - split; [exact Hp'|].
    pose proof (tile_clicked_twice
                  (mkSession PLAYING (Some "img") 3
                     (arr_of ((JNum <$> [1; 2; 3; 4; 5; 6; 7]) ++ [JNull; JNum 8]))
                     9 0) 8 9 eq_refl Hp') as Htwice.
    cbv zeta in Htwice.
    destruct Htwice as (Hmoves & Hcase).
    + vm_compute. repeat constructor.
    + by vm_compute.
    + match type of Hcase with
      | if isSolved ?b then _ else _ =>
          replace (isSolved b) with true in Hcase by (by vm_compute)
      end.
      destruct Hcase as (Hstatus & Hsame).
      split; [exact Hstatus|]. split; [exact Hmoves|exact Hsame].
Defined.

(** ** Starting and restarting *)

(** X10.  A start and a restart that return leave a session the
    solved-check effect does not touch: it is [PLAYING] on the unsolved
    board [shuffleBoard] returned, with both counters at zero and time left
    on the clock.  The start installs the chosen image and level; the
    restart keeps the image and the size, whatever the status was. *)
Theorem start_and_restart :
  (∀ fuel rnd c img level st st',
     level ∈ levels → valid_rng rnd →
     handleGameStart fuel rnd c img level st = Some st' →
     solvedEffect st' = st' ∧
     st' = mkSession PLAYING (Some img) level (board st') 0 0 ∧
     shuffleBoard fuel level rnd c = Some (board st') ∧
     isSolved (board st') = false ∧
     time st' < timeLimit st') ∧
  (∀ fuel rnd c st st',
     size st ∈ levels → valid_rng rnd →
     handleReset fuel rnd c st = Some st' →
     solvedEffect st' = st' ∧
     st' = mkSession PLAYING (imageSrc st) (size st) (board st') 0 0 ∧
     shuffleBoard fuel (size st) rnd c = Some (board st') ∧
     isSolved (board st') = false ∧
     time st' < timeLimit st').
Proof.
  split.
  - intros fuel rnd c img level st st' Hlevel Hrnd Hstart.
    unfold handleGameStart in Hstart.
    destruct (shuffleBoard fuel level rnd c) as [b|] eqn:Hb; simplify_eq/=.
    destruct (shuffleBoard_props _ _ _ _ _ Hlevel Hrnd Hb) as [_ Hns].
    unfold solvedEffect, timeLimit. simpl. rewrite Hns.
    repeat split; try done. by apply levels_limit_pos.
  - intros fuel rnd c st st' Hsize Hrnd Hreset.
    unfold handleReset in Hreset.
    destruct (shuffleBoard fuel (size st) rnd c) as [b|] eqn:Hb; simplify_eq/=.
    destruct (shuffleBoard_props _ _ _ _ _ Hsize Hrnd Hb) as [_ Hns].
    unfold solvedEffect, timeLimit. simpl. rewrite Hns.
    repeat split; try done. by apply levels_limit_pos.
Qed.

Lemma start_and_restart_witness :
  let st := handleSolve session_blank_low in
  ∃ st', handleReset 0 rng_zero 0 st = Some st' ∧
         status st' = PLAYING ∧ moves st' = 0 ∧ time st' = 0 ∧
         solvedEffect st' = st'.
Proof.
  destruct start_and_restart as [_ Hreset].
  eexists. split; [by vm_compute|].
  split; [done|]. split; [done|]. split; [done|].
  eapply (Hreset 0%nat rng_zero 0%nat (handleSolve session_blank_low));
    [by vm_compute; apply list_elem_of_here|exact valid_rng_zero|by vm_compute].
Defined.

(** ** The tiles handed to the renderer *)

Lemma render_game_page (st : Session) (p : Page) :
  render st = Some p → status st ≠ SELECTING →
  ∃ tiles, p = GamePage tiles ∧
           mapM (renderSlot st) (items (board st)) = Some tiles.
Proof.
  unfold render. intros Hrender Hsel. rewrite decide_False in Hrender by done.
  apply fmap_Some in Hrender as (tiles & Hmap & ->). by exists tiles.
Qed.

Lemma omap_mapM {A B} (f : A → option (option B)) (l : list A)
    (k : list (option B)) :
  mapM f l = Some k → omap id k = omap (λ x, mjoin (f x)) l.
Proof.
  intros Hall%mapM_Some_1.
  induction Hall as [|x y l k Hxy _ IH]; [done|].
  simpl in IH |- *. rewrite Hxy. simpl.
  destruct y; simpl; [f_equal|]; exact IH.
Qed.

(** The tiles of a game page, read off the board. *)
Lemma render_page_tiles (st : Session) (p : Page) :
  render st = Some p → status st ≠ SELECTING →
  page_tiles p = omap (λ x, mjoin (renderSlot st x)) (items (board st)).
Proof.
  intros Hrender Hsel.
  destruct (render_game_page st p Hrender Hsel) as (tiles & -> & Hmap).
  simpl. by apply omap_mapM.
Qed.

Lemma elem_of_page_tiles (st : Session) (p : Page) (t : TileProps) :
  render st = Some p → t ∈ page_tiles p →
  JNum (tile_value t) ∈ items (board st) ∧
  t = mkTileProps (tile_value t) (size st)
        (slot_x (size st) (arr_indexOf (board st) (JNum (tile_value t))),
         slot_y (size st) (arr_indexOf (board st) (JNum (tile_value t))))
        (arr_indexOf (board st) (JNum (tile_value t)))
        (bool_decide (status st = SOLVED)).
Proof.
  intros Hrender Hin.
  destruct (decide (status st = SELECTING)) as [Hsel|Hsel].
  { unfold render in Hrender. rewrite decide_True in Hrender by done.
    simplify_eq. by apply elem_of_nil in Hin. }
  rewrite (render_page_tiles st p Hrender Hsel) in Hin.
  apply list_elem_of_omap in Hin as (x & Hx & Hslot).
  destruct x as [v| |]; simplify_eq/=. by split.
Qed.

(** A tile of a rendered page, against the slot it stands for. *)
Lemma page_tile_slot (st : Session) (p : Page) (t : TileProps) :
  render st = Some p → t ∈ page_tiles p →
  0 ≤ tile_onClick t < arr_length (board st) ∧
  arr_get (board st) (tile_onClick t) = JNum (tile_value t) ∧
  tile_onClick t ≠ arr_indexOf (board st) JNull ∧
  tile_position t =
    (slot_x (size st) (tile_onClick t), slot_y (size st) (tile_onClick t)) ∧
  tile_boardSize t = size st ∧
  tileOnClick st (tile_value t) = handleTileClick st (tile_onClick t).
Proof.
  intros Hrender Hin.
  destruct (elem_of_page_tiles st p t Hrender Hin) as [Hvalue Heq].
  set (pos := arr_indexOf (board st) (JNum (tile_value t))) in *.
  assert (pos ≠ -1) as Hpos by (by intros Hnone%arr_indexOf_None).
  destruct (arr_indexOf_Some (board st) _ pos eq_refl Hpos) as (Hrange & Hget & _).
  assert (tile_onClick t = pos) as -> by (by rewrite Heq).
  split; [done|]. split; [done|]. split.
  { intros Hblank.
    destruct (decide (arr_indexOf (board st) JNull = -1)) as [Hnone|Hsome];
      [lia|].
    destruct (arr_indexOf_Some (board st) JNull _ eq_refl Hsome) as (_ & Hnull & _).
    rewrite <-Hblank in Hnull. congruence. }
  split; [by rewrite Heq|]. split; [by rewrite Heq|done].
Qed.

(** X11.  Every tile of a rendered page stands for a slot of the board:
    the index its click passes to [handleTileClick] is in range, that slot
    holds the tile's value, and the tile is drawn at the column and row of
    that index.  So the interface never clicks an index outside the board
    nor the empty slot. *)
Theorem render_tiles_spec (st : Session) (p : Page) (t : TileProps) :
  render st = Some p → t ∈ page_tiles p →
  0 ≤ tile_onClick t < arr_length (board st) ∧
  arr_get (board st) (tile_onClick t) = JNum (tile_value t) ∧
  tile_onClick t ≠ arr_indexOf (board st) JNull ∧
  tile_position t =
    (slot_x (size st) (tile_onClick t), slot_y (size st) (tile_onClick t)) ∧
  tile_boardSize t = size st ∧
  tileOnClick st (tile_value t) = handleTileClick st (tile_onClick t).
Proof. apply page_tile_slot. Qed.

Lemma render_tiles_spec_witness :
  ∃ p t,
    render session_blank_low = Some p ∧ t ∈ page_tiles p ∧
    tile_value t = 8 ∧ tile_onClick t = 4 ∧ tile_position t = (1, 1).
Proof.
  eexists. exists (mkTileProps 8 3 (1, 1) 4 false).
  split; [by vm_compute|].
  assert (mkTileProps 8 3 (1, 1) 4 false ∈
          page_tiles (GamePage
            (mjoin <$> (renderSlot session_blank_low <$>
                          items (board session_blank_low))))) as Hin.
  { vm_compute. repeat constructor. }
  split; [exact Hin|].
  destruct (render_tiles_spec session_blank_low _ _ eq_refl Hin)
    as (_ & _ & _ & Hpos & _).
  split; [done|]. split; [done|exact Hpos].
Defined.

(** The numbers among the elements of the solved layout. *)
Lemma omap_solved_items (n : Z) :
  omap (λ x, match x with JNum v => Some v | _ => None end) (solved_items n)
  = seqZ 1 (n - 1).
Proof.
  unfold solved_items. rewrite omap_app.
  assert (∀ l : list Z,
            omap (λ x, match x with JNum v => Some v | _ => None end)
                 (JNum <$> l) = l) as Hnums.
  { induction l as [|v l IH]; [done|]. simpl in IH |- *. by f_equal. }
  rewrite Hnums. simpl. by rewrite app_nil_r.
Qed.

Lemma slot_coords_inj (s i j : Z) :
  0 < s → 0 ≤ i → 0 ≤ j →
  slot_x s i = slot_x s j → slot_y s i = slot_y s j → i = j.
Proof.
  intros Hs Hi Hj Hx Hy.
  destruct (slot_decompose s Hs i Hi) as [Hdi _].
  destruct (slot_decompose s Hs j Hj) as [Hdj _].
  rewrite Hdi, Hdj, Hx, Hy. done.
Qed.

(** X12.  On a board that is an arrangement of the solved layout for a
    positive size, the game page shows one tile per identifier: the values
    of its tiles, which are their React keys, are [1 .. n - 1] each once,
    and no two tiles share a click index or a position on the grid. *)
Theorem render_one_tile_per_identifier (st : Session) (n : Z) :
  0 < size st → status st ≠ SELECTING →
  items (board st) ≡ₚ solved_items n →
  ∃ p, render st = Some p ∧
       tile_value <$> page_tiles p ≡ₚ seqZ 1 (n - 1) ∧
       NoDup (tile_value <$> page_tiles p) ∧
       NoDup (tile_onClick <$> page_tiles p) ∧
       NoDup (tile_position <$> page_tiles p).
Proof.
  intros Hsize Hsel Hp.
  assert (is_Some (mapM (renderSlot st) (items (board st)))) as [tiles Hmap].
  { apply mapM_is_Some_2, Forall_forall. intros x Hx.
    rewrite Hp in Hx. apply elem_of_solved_items in Hx as [->|(k & -> & _)];
      by eexists. }
  assert (render st = Some (GamePage tiles)) as Hrender.
  { unfold render. rewrite decide_False by done. by rewrite Hmap. }
  exists (GamePage tiles). split; [done|].
  assert (tile_value <$> page_tiles (GamePage tiles) ≡ₚ seqZ 1 (n - 1)) as Hvalues.
  { rewrite (render_page_tiles st _ Hrender Hsel), list_fmap_omap.
    rewrite <-omap_solved_items, <-Hp.
    apply reflexive_eq, list_omap_ext, Forall2_same_length_lookup_2; [done|].
    intros i x y Hx Hy. simplify_eq. by destruct x. }
  assert (NoDup (tile_value <$> page_tiles (GamePage tiles))) as Hnd
    by (rewrite Hvalues; apply NoDup_seqZ).
  split; [done|]. split; [done|].
  assert (∀ t t', t ∈ page_tiles (GamePage tiles) →
                  t' ∈ page_tiles (GamePage tiles) →
                  tile_onClick t = tile_onClick t' → t = t') as Hinj.
  { intros t t' Ht Ht' Heq.
    destruct (page_tile_slot st _ t Hrender Ht) as (_ & Hg & _).
    destruct (page_tile_slot st _ t' Hrender Ht') as (_ & Hg' & _).
    rewrite Heq, Hg' in Hg. injection Hg as Hv.
    destruct (elem_of_page_tiles st _ t Hrender Ht) as [_ ->].
    destruct (elem_of_page_tiles st _ t' Hrender Ht') as [_ ->].
    simpl. by rewrite Hv. }
  split.
  - apply NoDup_fmap_2_strong; [exact Hinj|by eapply NoDup_fmap_1].
  - apply NoDup_fmap_2_strong; [|by eapply NoDup_fmap_1].
    intros t t' Ht Ht' Heq. apply Hinj; [done..|].
    destruct (page_tile_slot st _ t Hrender Ht) as (Hr & _ & _ & Hpos & _).
    destruct (page_tile_slot st _ t' Hrender Ht') as (Hr' & _ & _ & Hpos' & _).
    rewrite Hpos, Hpos' in Heq. injection Heq as Hx Hy.
    apply (slot_coords_inj (size st)); (done || lia).
Qed.

Lemma render_one_tile_per_identifier_witness :
  0 < size session_blank_low ∧
  status session_blank_low ≠ SELECTING ∧
  ∃ p, render session_blank_low = Some p ∧
       tile_value <$> page_tiles p = [1; 2; 3; 4; 8; 5; 7; 6] ∧
       tile_value <$> page_tiles p ≡ₚ seqZ 1 8.
Proof.
  split; [done|]. split; [done|].
  assert (items (board session_blank_low) ≡ₚ solved_items 9) as Hp.
  { destruct (reachable_status_inv _ session_blank_low_reachable)
      as [_ (_ & Hgame & _)].
    by destruct Hgame as (_ & Hp & _). }
  destruct (render_one_tile_per_identifier session_blank_low 9
              ltac:(done) ltac:(done) Hp) as (p & Hrender & Hvalues & _).
  exists p. split; [exact Hrender|]. split; [|exact Hvalues].
  assert (render session_blank_low =
          Some (GamePage (mjoin <$> (renderSlot session_blank_low <$>
                                       items (board session_blank_low)))))
    as Hval by (by vm_compute).
  rewrite Hval in Hrender. injection Hrender as <-. by vm_compute.
Defined.

(** ** Tiles and their crops *)

(** X13.  [isSolved] is what the player sees: on an arrangement of the
    solved layout of a positive size, the board is solved exactly when
    every tile of the page is drawn at the column and row of the crop it
    shows, [(correctX, correctY)] of [Tile]. *)
Theorem solved_iff_tiles_in_place (st : Session) (p : Page) :
  0 < size st → status st ≠ SELECTING →
  items (board st) ≡ₚ solved_items (size st * size st) →
  render st = Some p →
  isSolved (board st) = true ↔
  ∀ t, t ∈ page_tiles p →
       tile_position t =
         (correctX (tile_boardSize t) (tile_value t),
          correctY (tile_boardSize t) (tile_value t)).
Proof.
  intros Hsize Hsel Hp Hrender.
  pose proof (perm_length (size st * size st) (board st) ltac:(nia) Hp) as Hlen.
  rewrite isSolved_spec, Hlen. split.
  - intros [Htiles Hlast] t Ht.
    destruct (page_tile_slot st p t Hrender Ht)
      as (Hr & Hg & _ & -> & -> & _).
    assert (tile_onClick t = tile_value t - 1) as ->; [|done].
    destruct (decide (tile_onClick t = size st * size st - 1)) as [Heq|Hne].
    + rewrite Heq in Hg. congruence.
    + rewrite Htiles in Hg by lia. injection Hg as Hg. lia.
  - intros Hplace.
    assert (∀ i, 0 ≤ i ≤ size st * size st - 2 →
                 arr_get (board st) i = JNum (i + 1)) as Htiles.
    { intros i Hi.
      assert (JNum (i + 1) ∈ items (board st)) as Hin.
      { rewrite Hp. apply elem_of_solved_items. right.
        exists (i + 1). split; [done|lia]. }
      set (t := mkTileProps (i + 1) (size st)
             (slot_x (size st) (arr_indexOf (board st) (JNum (i + 1))),
              slot_y (size st) (arr_indexOf (board st) (JNum (i + 1))))
             (arr_indexOf (board st) (JNum (i + 1)))
             (bool_decide (status st = SOLVED))).
      assert (t ∈ page_tiles p) as Ht.
      { rewrite (render_page_tiles st p Hrender Hsel).
        apply list_elem_of_omap. by exists (JNum (i + 1)). }
      destruct (page_tile_slot st p t Hrender Ht) as (Hr & Hg & _).
      specialize (Hplace t Ht). simpl in Hplace, Hr, Hg.
      injection Hplace as Hx Hy.
      unfold correctX, correctY, correctPosition in Hx, Hy.
      assert (arr_indexOf (board st) (JNum (i + 1)) = i + 1 - 1) as Hidx.
      { apply (slot_coords_inj (size st)); (done || lia). }
      rewrite Hidx in Hg. by replace (i + 1 - 1) with i in Hg by lia. }
    split; [done|].
    assert (arr_indexOf (board st) JNull ≠ -1) as Hblank.
    { intros Hnone%arr_indexOf_None. apply Hnone. rewrite Hp.
      apply elem_of_solved_items. by left. }
    destruct (arr_indexOf_Some (board st) JNull _ eq_refl Hblank)
      as (Hk & Hnull & _).
    set (k := arr_indexOf (board st) JNull) in *.
    destruct (decide (k = size st * size st - 1)) as [<-|Hne]; [done|].
    rewrite Htiles in Hnull by lia. done.
Qed.

Lemma solved_iff_tiles_in_place_witness :
  let st := mkSession SOLVED (Some "img") 2
              (arr_of [JNum 1; JNum 2; JNum 3; JNull]) 4 9 in
  0 < size st ∧ status st ≠ SELECTING ∧
  ∃ p, render st = Some p ∧
       ∀ t, t ∈ page_tiles p →
            tile_position t =
              (correctX (tile_boardSize t) (tile_value t),
               correctY (tile_boardSize t) (tile_value t)).
Proof.
  split; [done|]. split; [done|].
  eexists. split; [by vm_compute|].
  apply (solved_iff_tiles_in_place
           (mkSession SOLVED (Some "img") 2
              (arr_of [JNum 1; JNum 2; JNum 3; JNull]) 4 9));
    [done|done|done|by vm_compute|by vm_compute].
Defined.

(** X14.  The crop a tile shows, as [Tile] computes it: for a tile of
    [1 .. s² - 1] on a board of positive side [s], the column and the row
    of the crop are within the grid, they determine the tile, and they are
    never those of the bottom-right corner, the piece of the image no tile
    shows. *)
Theorem tile_crop_coordinates (s v : Z) :
  0 < s → 1 ≤ v ≤ s * s - 1 →
  0 ≤ correctX s v < s ∧
  0 ≤ correctY s v < s ∧
  v = correctY s v * s + correctX s v + 1 ∧
  (correctX s v, correctY s v) ≠ (s - 1, s - 1).
Proof.
  intros Hs Hv. unfold correctX, correctY, correctPosition.
  destruct (slot_decompose s Hs (v - 1) ltac:(lia)) as [Hd Hx].
  pose proof (slot_y_range s Hs (v - 1) ltac:(lia)) as Hy.
  unfold slot_x, slot_y in Hd, Hx, Hy.
  split; [done|]. split; [done|]. split; [lia|].
  intros Heq. injection Heq as Hx' Hy'. rewrite Hx', Hy' in Hd. lia.
Qed.

Lemma tile_crop_coordinates_witness :
  0 < 3 ∧ 1 ≤ 6 ≤ 3 * 3 - 1 ∧
  correctX 3 6 = 2 ∧ correctY 3 6 = 1 ∧
  (correctX 3 6, correctY 3 6) ≠ (3 - 1, 3 - 1).
Proof.
  split; [lia|]. split; [lia|]. split; [done|]. split; [done|].
  by destruct (tile_crop_coordinates 3 6) as (_ & _ & _ & Hne); [lia|lia|].
Defined.

(** ** Messages *)

(** X15.  The fallback branches of the two message functions are dead on
    a game page: in a session the interface can reach, once a game has been
    started there is always a message, and after a win it is one of the
    three that name a bonus, never the bare default. *)
Theorem messages_on_game_page (st : Session) :
  reachable st → status st ≠ SELECTING →
  ∃ text, renderMessage st = Some text ∧
          (status st = SOLVED →
             text = getWinMessage st ∧
             text ≠ "Gagné !" ∧
             text ∈ ["Gagné ! Bonus de 10% sur le billet de 5000.";
                     "Gagné ! Bonus de 7% sur le billet de 10000.";
                     "Gagné ! Bonus de 6% sur le billet de 25000."]).
Proof.
  intros [(Hsize & _) _]%reachable_status_inv Hsel.
  unfold renderMessage. destruct (status st) eqn:Hst; try done.
  - eexists. split; [done|]. by intros Hx.
  - eexists. split; [done|]. intros _. split; [done|].
    unfold getWinMessage, levels in *.
    rewrite !elem_of_cons, elem_of_nil in Hsize.
    destruct Hsize as [->|[->|[->|[]]]]; simpl;
      (split; [done|]); rewrite !elem_of_cons; auto.
  - eexists. split; [done|]. by intros Hx.
Qed.

Lemma messages_on_game_page_witness :
  let st := handleSolve session_blank_low in
  reachable st ∧ status st ≠ SELECTING ∧
  renderMessage st = Some "Gagné ! Bonus de 10% sur le billet de 5000.".
Proof.
  assert (reachable (handleSolve session_blank_low)) as Hreach.
  { eapply rtc_r; [exact session_blank_low_reachable|].
    change (handleSolve session_blank_low)
      with (solvedEffect (handleSolve session_blank_low)).
    by apply step_solve. }
  split; [exact Hreach|]. split; [done|].
  destruct (messages_on_game_page (handleSolve session_blank_low)
              Hreach ltac:(done)) as (text & Htext & Hwin).
  destruct (Hwin eq_refl) as (-> & _). exact Htext.
Defined.
